(** * Real-time meeting translator: the duplex audio session of [App.tsx]

    A shallow embedding of the session logic of [src/App.tsx]: the playback
    scheduler (lines 181-211), the transcript aggregator (lines 169-179 and
    213-225) and the session controller ([cleanUpAudio],
    [handleStopListening], [handleStartListening] and the four session
    callbacks).

    Conventions of the embedding.
    - React state and the [useRef] cells are fields of one record; a
      [setX(v)] or [ref.current = v] is a field update, and the functional
      update [setX(prev => f prev)] reads the field it updates.
    - Calls on browser and SDK objects (tracks, audio contexts, buffer
      sources, the live session) are appended to a call log, oldest first.
    - An [async] function is cut at its [await]: the part before it is one
      function, the part after it a second one (suffix [_resume]) that
      takes the outcome of the awaited promise.  What a suspended function
      holds in its local constants is kept in the state until it resumes;
      any other event may come in between.
    - An exception that leaves a handler ends the handler there; what it
      did before stays done.
    - JavaScript numbers that hold times are exact rationals ([Q]);
      [Date.now()] is an integer number of milliseconds ([Z]).
    - JavaScript strings are lists of UTF-16 code units.
    - [decode] and [decodeAudioData] live in [utils/audio], which is not
      among the sources at hand; the decoder is a parameter that maps a
      payload to the buffer it decodes to, and whether and when a decoding
      succeeds is up to the events of a run. *)

From Stdlib Require Import String Ascii.
From Stdlib Require Import List Bool Arith ZArith NArith QArith Qminmax Lia Lqa.
Import ListNotations.

Set Implicit Arguments.

(** ** JavaScript strings *)

Definition JSString := list N.

(** An ASCII literal as a JavaScript string. *)
Definition js (s : string) : JSString :=
  map N_of_ascii (list_ascii_of_string s).

(** ECMAScript [WhiteSpace] and [LineTerminator] code units, the ones
    [String.prototype.trim] strips. *)
Definition isWhiteSpace (c : N) : bool :=
  ((c =? 0x9) || (c =? 0xA) || (c =? 0xB) || (c =? 0xC) || (c =? 0xD)
   || (c =? 0x20) || (c =? 0xA0) || (c =? 0x1680)
   || ((0x2000 <=? c) && (c <=? 0x200A))
   || (c =? 0x2028) || (c =? 0x2029) || (c =? 0x202F) || (c =? 0x205F)
   || (c =? 0x3000) || (c =? 0xFEFF))%N.

Fixpoint trimStart (s : JSString) : JSString :=
  match s with
  | c :: s' => if isWhiteSpace c then trimStart s' else s
  | [] => []
  end.

Definition trimEnd (s : JSString) : JSString := rev (trimStart (rev s)).

Definition trim (s : JSString) : JSString := trimEnd (trimStart s).

(** Truthiness of a string: every string but the empty one. *)
Definition truthy (s : JSString) : bool :=
  match s with [] => false | _ :: _ => true end.

(** ** types.ts *)

Inductive AppStatus := IDLE | CONNECTING | LISTENING | ERROR.

Record TranscriptionTurn := {
  id : Z;
  chinese : JSString;
  english : JSString
}.

(** ** Browser and SDK objects *)

(** Objects are named by the order of their creation. *)
Definition MediaStream := nat.
Definition AudioContext := nat.
Definition ScriptProcessorNode := nat.
Definition AudioBufferSourceNode := nat.
Definition SessionPromise := nat.

Record AudioBuffer := { duration : Q }.

(** What the code calls on objects it does not own. *)
Inductive Call :=
| TrackStop (stream : MediaStream)
| ProcessorDisconnect (p : ScriptProcessorNode)
| ContextClose (c : AudioContext)
| NewAudioContext (c : AudioContext) (sampleRate : N)
| CreateScriptProcessor (c : AudioContext) (p : ScriptProcessorNode)
| LiveConnect (p : SessionPromise)
| SessionClose (p : SessionPromise)
| SourceStart (source : AudioBufferSourceNode) (buffer : AudioBuffer) (when : Q)
| SourceStop (source : AudioBufferSourceNode)
| ConsoleError.

(** A value thrown or rejected with: an [Error] with its message, or
    anything else with its [String(...)] rendering. *)
Inductive Thrown :=
| ErrorObject (message : JSString)
| OtherValue (rendering : JSString).

Inductive Settled (A : Type) :=
| Fulfilled (value : A)
| Rejected (reason : Thrown).
Arguments Rejected {A} reason.

(** ** LiveServerMessage, as far as [onmessage] reads it *)

Record Transcription := { text : option JSString }.
Record Blob := { data : option JSString }.
Record Part := { inlineData : option Blob }.

(** The [Content] of a model turn; its [parts] are optional. *)
Record Content := { parts : option (list Part) }.

Record LiveServerContent := {
  inputTranscription : option Transcription;
  outputTranscription : option Transcription;
  modelTurn : option Content;
  interrupted : bool;
  turnComplete : bool
}.

Record LiveServerMessage := { serverContent : option LiveServerContent }.

(** What a message handler holds while it awaits the decoder at line 188:
    the start time it computed at lines 184-187, the payload it handed to
    the decoder, and the message content it still has to go through. *)
Record Suspended := {
  heldStart : Q;
  heldPayload : JSString;
  heldContent : LiveServerContent
}.

(** ** The state of the component *)

Record App := {
  (* useState *)
  status : AppStatus;
  transcriptionHistory : list TranscriptionTurn;
  currentChinese : JSString;
  currentEnglish : JSString;
  (* useRef *)
  sessionPromiseRef : option SessionPromise;
  streamRef : option MediaStream;
  audioContextRef : option AudioContext;
  processorRef : option ScriptProcessorNode;
  outputAudioContextRef : option AudioContext;
  nextStartTimeRef : Q;
  audioSourcesRef : list AudioBufferSourceNode;
  currentChineseRef : JSString;
  currentEnglishRef : JSString;
  (* the world around the component *)
  calls : list Call;
  fresh : nat;
  (* the handlers that are suspended at an [await] *)
  pendingStarts : nat;
  pendingStops : list SessionPromise;
  pendingDecodes : list Suspended
}.

Definition setStatus (v : AppStatus) (s : App) : App :=
  let '(Build_App _ b c d e f g h i j k l m n o p q r) := s in
  Build_App v b c d e f g h i j k l m n o p q r.

Definition setTranscriptionHistory (v : list TranscriptionTurn) (s : App) : App :=
  let '(Build_App a _ c d e f g h i j k l m n o p q r) := s in
  Build_App a v c d e f g h i j k l m n o p q r.

Definition setCurrentChinese (v : JSString) (s : App) : App :=
  let '(Build_App a b _ d e f g h i j k l m n o p q r) := s in
  Build_App a b v d e f g h i j k l m n o p q r.

Definition setCurrentEnglish (v : JSString) (s : App) : App :=
  let '(Build_App a b c _ e f g h i j k l m n o p q r) := s in
  Build_App a b c v e f g h i j k l m n o p q r.

Definition set_sessionPromiseRef (v : option SessionPromise) (s : App) : App :=
  let '(Build_App a b c d _ f g h i j k l m n o p q r) := s in
  Build_App a b c d v f g h i j k l m n o p q r.

Definition set_streamRef (v : option MediaStream) (s : App) : App :=
  let '(Build_App a b c d e _ g h i j k l m n o p q r) := s in
  Build_App a b c d e v g h i j k l m n o p q r.

Definition set_audioContextRef (v : option AudioContext) (s : App) : App :=
  let '(Build_App a b c d e f _ h i j k l m n o p q r) := s in
  Build_App a b c d e f v h i j k l m n o p q r.

Definition set_processorRef (v : option ScriptProcessorNode) (s : App) : App :=
  let '(Build_App a b c d e f g _ i j k l m n o p q r) := s in
  Build_App a b c d e f g v i j k l m n o p q r.

Definition set_outputAudioContextRef (v : option AudioContext) (s : App) : App :=
  let '(Build_App a b c d e f g h _ j k l m n o p q r) := s in
  Build_App a b c d e f g h v j k l m n o p q r.

Definition set_nextStartTimeRef (v : Q) (s : App) : App :=
  let '(Build_App a b c d e f g h i _ k l m n o p q r) := s in
  Build_App a b c d e f g h i v k l m n o p q r.

Definition set_audioSourcesRef (v : list AudioBufferSourceNode) (s : App) : App :=
  let '(Build_App a b c d e f g h i j _ l m n o p q r) := s in
  Build_App a b c d e f g h i j v l m n o p q r.

Definition set_currentChineseRef (v : JSString) (s : App) : App :=
  let '(Build_App a b c d e f g h i j k _ m n o p q r) := s in
  Build_App a b c d e f g h i j k v m n o p q r.

Definition set_currentEnglishRef (v : JSString) (s : App) : App :=
  let '(Build_App a b c d e f g h i j k l _ n o p q r) := s in
  Build_App a b c d e f g h i j k l v n o p q r.

Definition set_calls (v : list Call) (s : App) : App :=
  let '(Build_App a b c d e f g h i j k l m _ o p q r) := s in
  Build_App a b c d e f g h i j k l m v o p q r.

Definition set_fresh (v : nat) (s : App) : App :=
  let '(Build_App a b c d e f g h i j k l m n _ p q r) := s in
  Build_App a b c d e f g h i j k l m n v p q r.

Definition set_pendingStarts (v : nat) (s : App) : App :=
  let '(Build_App a b c d e f g h i j k l m n o _ q r) := s in
  Build_App a b c d e f g h i j k l m n o v q r.

Definition set_pendingStops (v : list SessionPromise) (s : App) : App :=
  let '(Build_App a b c d e f g h i j k l m n o p _ r) := s in
  Build_App a b c d e f g h i j k l m n o p v r.

Definition set_pendingDecodes (v : list Suspended) (s : App) : App :=
  let '(Build_App a b c d e f g h i j k l m n o p q _) := s in
  Build_App a b c d e f g h i j k l m n o p q v.

(** One call on an outside object. *)
Definition call (c : Call) (s : App) : App := set_calls (calls s ++ [c]) s.

(** Names a new object. *)
Definition allocate (s : App) : nat * App := (fresh s, set_fresh (S (fresh s)) s).

(** The state of a mounted component before any interaction
    (lines 64-80). *)
Definition initial : App := {|
  status := IDLE;
  transcriptionHistory := [];
  currentChinese := [];
  currentEnglish := [];
  sessionPromiseRef := None;
  streamRef := None;
  audioContextRef := None;
  processorRef := None;
  outputAudioContextRef := None;
  nextStartTimeRef := 0;
  audioSourcesRef := [];
  currentChineseRef := [];
  currentEnglishRef := [];
  calls := [];
  fresh := 0%nat;
  pendingStarts := 0%nat;
  pendingStops := [];
  pendingDecodes := []
|}.

(** ** The JavaScript [Set] of playing sources and [Math.max] *)

(** A [Set] keeps its members in insertion order, each once. *)
Definition Set_has (x : nat) (l : list nat) : bool := existsb (Nat.eqb x) l.

Definition Set_add (x : nat) (l : list nat) : list nat :=
  if Set_has x l then l else l ++ [x].

Definition Set_delete (x : nat) (l : list nat) : list nat :=
  filter (fun y => negb (Nat.eqb x y)) l.

Definition Math_max (a b : Q) : Q := Qmax a b.

(** [ctx.state === 'closed']: [close()] was called on the context. *)
Definition isClosed (c : AudioContext) (log : list Call) : bool :=
  existsb (fun e => match e with ContextClose c' => Nat.eqb c c' | _ => false end) log.

(** ** cleanUpAudio (lines 82-105) *)

(** [audioSourcesRef.current.forEach(source => source.stop())] *)
Definition stopAllSources (s : App) : App :=
  fold_left (fun s' source => call (SourceStop source) s') (audioSourcesRef s) s.

(** Lines 101-103, and again lines 208-210: stop every playing source,
    clear the set, reset the playback cursor. *)
Definition flush (s : App) : App :=
  let s := stopAllSources s in
  let s := set_audioSourcesRef [] s in
  set_nextStartTimeRef 0 s.

Definition closeContext (ref : option AudioContext) (s : App) : App :=
  match ref with
  | Some c => if negb (isClosed c (calls s)) then call (ContextClose c) s else s
  | None => s
  end.

Definition cleanUpAudio (s : App) : App :=
  let s := match streamRef s with
           | Some stream => call (TrackStop stream) s
           | None => s
           end in
  let s := set_streamRef None s in
  let s := match processorRef s with
           | Some p => set_processorRef None (call (ProcessorDisconnect p) s)
           | None => s
           end in
  let s := closeContext (audioContextRef s) s in
  let s := set_audioContextRef None s in
  let s := closeContext (outputAudioContextRef s) s in
  let s := set_outputAudioContextRef None s in
  flush s.

(** ** handleStopListening (lines 107-120) *)

(** Up to [await sessionPromiseRef.current]; without a session promise the
    function runs to its end at once. *)
Definition finishStop (s : App) : App := setStatus IDLE (cleanUpAudio s).

Definition handleStopListening (s : App) : App :=
  match sessionPromiseRef s with
  | Some p => set_pendingStops (pendingStops s ++ [p]) s
  | None => finishStop s
  end.

(** After the [await]: [session.close()] when the promise [p] was
    fulfilled, the [catch] when it was rejected, then [finally] and the
    two statements after the [if]. *)
Definition handleStopListening_resume
    (p : SessionPromise) (fulfilled : bool) (s : App) : App :=
  let s := if fulfilled then call (SessionClose p) s else call ConsoleError s in
  let s := set_sessionPromiseRef None s in
  finishStop s.

(** ** handleStartListening (lines 123-248) *)

Definition errorPrefix : JSString := js "Error: ".

(** Lines 124-134, up to [await getUserMedia]. *)
Definition handleStartListening (s : App) : App :=
  let s := setStatus CONNECTING s in
  let s := setCurrentChinese [] s in
  let s := setCurrentEnglish [] s in
  let s := set_currentChineseRef [] s in
  let s := set_currentEnglishRef [] s in
  let s := setTranscriptionHistory [] s in
  set_pendingStarts (S (pendingStarts s)) s.

(** [error instanceof Error ? error.message : String(error)] *)
Definition errorMessage (error : Thrown) : JSString :=
  match error with
  | ErrorObject message => message
  | OtherValue rendering => rendering
  end.

(** Lines 135-142 when the stream was granted, the [catch] of lines
    241-247 when [getUserMedia] rejected. *)
Definition handleStartListening_resume (r : Settled MediaStream) (s : App) : App :=
  match r with
  | Fulfilled stream =>
      let s := set_streamRef (Some stream) s in
      let '(ctx, s) := allocate s in
      let s := call (NewAudioContext ctx 24000) s in
      let s := set_outputAudioContextRef (Some ctx) s in
      let '(p, s) := allocate s in
      let s := call (LiveConnect p) s in
      set_sessionPromiseRef (Some p) s
  | Rejected error =>
      let s := call ConsoleError s in
      let s := setStatus ERROR s in
      let s := setCurrentEnglish (errorPrefix ++ errorMessage error) s in
      cleanUpAudio s
  end.

(** ** The session callbacks *)

(** onopen (lines 151-167). *)
Definition onopen (s : App) : App :=
  let s := setStatus LISTENING s in
  let '(ctx, s) := allocate s in
  let s := call (NewAudioContext ctx 16000) s in
  let s := set_audioContextRef (Some ctx) s in
  let '(p, s) := allocate s in
  let s := call (CreateScriptProcessor ctx p) s in
  set_processorRef (Some p) s.

(** The two tracks of the transcript. *)
Inductive Track := SourceTrack | TargetTrack.

(** Lines 171-172 and 177-178: the fragment goes to the display string
    and to the accumulator of its track. *)
Definition appendFragment (track : Track) (fragment : JSString) (s : App) : App :=
  match track with
  | SourceTrack =>
      let s := setCurrentChinese (currentChinese s ++ fragment) s in
      set_currentChineseRef (currentChineseRef s ++ fragment) s
  | TargetTrack =>
      let s := setCurrentEnglish (currentEnglish s ++ fragment) s in
      set_currentEnglishRef (currentEnglishRef s ++ fragment) s
  end.

(** [prev + text]: a missing [text] is concatenated as "undefined". *)
Definition fragmentOf (t : Transcription) : JSString :=
  match text t with
  | Some fragment => fragment
  | None => js "undefined"
  end.

(** Line 181, [modelTurn?.parts[0]?.inlineData?.data].  The outer
    [None] is the [TypeError] of [parts[0]] when the model turn has no
    [parts]; the inner option is the value, [undefined] or a string. *)
Definition audioPayload (c : LiveServerContent) : option (option JSString) :=
  match modelTurn c with
  | None => Some None
  | Some content =>
      match parts content with
      | None => None
      | Some [] => Some None
      | Some (part :: _) =>
          match inlineData part with
          | Some blob => Some (data blob)
          | None => Some None
          end
      end
  end.

(** Lines 213-225, the body of [if (turnComplete)]; [dateNow] is what
    [Date.now()] returns when the updater of line 218 is run. *)
Definition completeTurn (dateNow : Z) (s : App) : App :=
  let finalChinese := currentChineseRef s in
  let finalEnglish := currentEnglishRef s in
  let s :=
    if truthy (trim finalChinese) || truthy (trim finalEnglish)
    then setTranscriptionHistory
           (transcriptionHistory s ++
            [{| id := dateNow; chinese := finalChinese; english := finalEnglish |}]) s
    else s in
  let s := setCurrentChinese [] s in
  let s := setCurrentEnglish [] s in
  let s := set_currentChineseRef [] s in
  set_currentEnglishRef [] s.

(** A list without its element at [index]. *)
Definition removeAt (A : Type) (index : nat) (l : list A) : list A :=
  firstn index l ++ skipn (S index) l.

Section Decoder.

(** The buffer that [decodeAudioData(decode(payload), ctx, 24000, 1)] of
    [utils/audio] yields for a payload when it yields one. *)
Variable decodeAudioData : JSString -> AudioBuffer.

(** Lines 194-204, after the [await]: a new source is started at the
    start time computed before the [await], the cursor is set to its end
    and the source joins the active set. *)
Definition startSource (nextStartTime : Q) (audioBuffer : AudioBuffer)
    (s : App) : App :=
  let '(source, s) := allocate s in
  let s := call (SourceStart source audioBuffer nextStartTime) s in
  let s := set_nextStartTimeRef (nextStartTime + duration audioBuffer) s in
  set_audioSourcesRef (Set_add source (audioSourcesRef s)) s.

(** The audio branch of a handler that nothing interleaves: lines 183-187
    and, with the decoded buffer and no other event in between, lines
    194-204.  [currentTime] is the reading of the output context's clock
    at line 186. *)
Definition schedule (currentTime : Q) (payload : JSString) (s : App) : App :=
  let nextStartTime := Math_max (nextStartTimeRef s) currentTime in
  let audioBuffer := decodeAudioData payload in
  startSource nextStartTime audioBuffer s.

(** Lines 207-225, the interruption and the end of the turn. *)
Definition finishMessage (dateNow : Z) (c : LiveServerContent) (s : App) : App :=
  let s := if interrupted c then flush s else s in
  if turnComplete c then completeTurn dateNow s else s.

(** The handler stops at the [await] of line 188. *)
Definition suspend (held : Suspended) (s : App) : App :=
  set_pendingDecodes (pendingDecodes s ++ [held]) s.

(** onmessage (lines 168-226) up to its [await].  [currentTime] is what
    [outputAudioContext.currentTime] reads at line 186, [dateNow] what
    [Date.now()] returns to the updater of line 218.  The handler ends
    early when line 181 throws; it suspends at line 188 when there is a
    payload and an output context, after it has computed the start time;
    otherwise it runs to its end. *)
Definition onmessage (currentTime : Q) (dateNow : Z)
    (message : LiveServerMessage) (s : App) : App :=
  match serverContent message with
  | None => s
  | Some c =>
      let s := match inputTranscription c with
               | Some t => appendFragment SourceTrack (fragmentOf t) s
               | None => s
               end in
      let s := match outputTranscription c with
               | Some t => appendFragment TargetTrack (fragmentOf t) s
               | None => s
               end in
      match audioPayload c with
      | None => s
      | Some base64 =>
          match base64, outputAudioContextRef s with
          | Some payload, Some _ =>
              if truthy payload
              then suspend {| heldStart :=
                                Math_max (nextStartTimeRef s) currentTime;
                              heldPayload := payload;
                              heldContent := c |} s
              else finishMessage dateNow c s
          | _, _ => finishMessage dateNow c s
          end
      end
  end.

(** onmessage after its [await]: with the decoded buffer lines 194-225,
    and nothing more when the decoder rejected. *)
Definition onmessage_resume (held : Suspended) (fulfilled : bool)
    (dateNow : Z) (s : App) : App :=
  if fulfilled
  then finishMessage dateNow (heldContent held)
         (startSource (heldStart held)
            (decodeAudioData (heldPayload held)) s)
  else s.

(** onerror (lines 228-233): the call of [handleStopListening] is not
    awaited, so the handler ends where that function suspends. *)
Definition onerror (message : JSString) (s : App) : App :=
  let s := call ConsoleError s in
  let s := setStatus ERROR s in
  let s := setCurrentEnglish (errorPrefix ++ message) s in
  handleStopListening s.

(** onclose (lines 234-238). *)
Definition onclose (s : App) : App :=
  let s := setStatus (match status s with ERROR => ERROR | _ => IDLE end) s in
  cleanUpAudio s.

(** The ['ended'] listener of a source (lines 198-200). *)
Definition onended (source : AudioBufferSourceNode) (s : App) : App :=
  set_audioSourcesRef (Set_delete source (audioSourcesRef s)) s.

(** ** Runs *)

(** What can happen to the component: the two button handlers, the
    callbacks, and the settling of the promises that handlers await.
    [DecodeSettled index] resumes the message handler that is the
    [index]-th of those suspended at the decoder. *)
Inductive Event :=
| Start
| GetUserMediaSettled (r : Settled MediaStream)
| Stop
| SessionAwaited (fulfilled : bool)
| Open
| Message (currentTime : Q) (dateNow : Z) (message : LiveServerMessage)
| RemoteError (message : JSString)
| Close
| Ended (source : AudioBufferSourceNode)
| DecodeSettled (index : nat) (fulfilled : bool) (dateNow : Z).

Definition step (s : App) (e : Event) : App :=
  match e with
  | Start => handleStartListening s
  | GetUserMediaSettled r =>
      match pendingStarts s with
      | S n => handleStartListening_resume r (set_pendingStarts n s)
      | O => s
      end
  | Stop => handleStopListening s
  | SessionAwaited fulfilled =>
      match pendingStops s with
      | p :: rest => handleStopListening_resume p fulfilled (set_pendingStops rest s)
      | [] => s
      end
  | Open => onopen s
  | Message currentTime dateNow message => onmessage currentTime dateNow message s
  | RemoteError message => onerror message s
  | Close => onclose s
  | Ended source => onended source s
  | DecodeSettled index fulfilled dateNow =>
      match nth_error (pendingDecodes s) index with
      | Some held =>
          onmessage_resume held fulfilled dateNow
            (set_pendingDecodes (removeAt index (pendingDecodes s)) s)
      | None => s
      end
  end.

Definition run (s : App) (events : list Event) : App := fold_left step events s.

(** The status after each event of a run, in order. *)
Fixpoint statuses (s : App) (events : list Event) : list AppStatus :=
  match events with
  | [] => []
  | e :: events' => status (step s e) :: statuses (step s e) events'
  end.

End Decoder.

(** ** Vocabulary of the properties *)

(** The playback timeline read off the call log: start time and duration
    of every [source.start(when)], oldest first. *)
Fixpoint starts (log : list Call) : list (Q * Q) :=
  match log with
  | SourceStart _ buffer when :: log' => (when, duration buffer) :: starts log'
  | _ :: log' => starts log'
  | [] => []
  end.

(** Audio payloads submitted in order, each with the clock reading at its
    submission and each handled to its end before the next is submitted. *)
Definition scheduleAll (decodeAudioData : JSString -> AudioBuffer)
    (submissions : list (Q * JSString)) (s : App) : App :=
  fold_left (fun s' sub => schedule decodeAudioData (fst sub) (snd sub) s')
            submissions s.

(** The part of the timeline that a sequence of submissions adds. *)
Definition scheduledBy (decodeAudioData : JSString -> AudioBuffer)
    (submissions : list (Q * JSString)) (s : App) : list (Q * Q) :=
  skipn (length (starts (calls s)))
        (starts (calls (scheduleAll decodeAudioData submissions s))).

(** The same timeline, computed along the submissions: what each one
    starts, given the state it finds. *)
Fixpoint timeline (decodeAudioData : JSString -> AudioBuffer)
    (submissions : list (Q * JSString)) (s : App) : list (Q * Q) :=
  match submissions with
  | [] => []
  | sub :: rest =>
      (Math_max (nextStartTimeRef s) (fst sub),
       duration (decodeAudioData (snd sub)))
      :: timeline decodeAudioData rest
           (schedule decodeAudioData (fst sub) (snd sub) s)
  end.

(** Fragments appended in order. *)
Definition appendAll (fragments : list (Track * JSString)) (s : App) : App :=
  fold_left (fun s' f => appendFragment (fst f) (snd f) s') fragments s.

Definition sameTrack (a b : Track) : bool :=
  match a, b with
  | SourceTrack, SourceTrack | TargetTrack, TargetTrack => true
  | _, _ => false
  end.

(** The concatenation of the fragments of one track. *)
Definition textOf (track : Track) (fragments : list (Track * JSString)) : JSString :=
  concat (map snd (filter (fun f => sameTrack track (fst f)) fragments)).

(** Full teardown, from the state [before] it to the state [after] it:
    the capture stream, the processor and both audio contexts are released
    and forgotten, every playing source is stopped and the scheduler is
    back at its start. *)
Definition TornDown (before after : App) : Prop :=
  streamRef after = None /\
  processorRef after = None /\
  audioContextRef after = None /\
  outputAudioContextRef after = None /\
  audioSourcesRef after = [] /\
  nextStartTimeRef after = 0 /\
  (forall stream, streamRef before = Some stream ->
     In (TrackStop stream) (calls after)) /\
  (forall p, processorRef before = Some p ->
     In (ProcessorDisconnect p) (calls after)) /\
  (forall c, audioContextRef before = Some c ->
     In (ContextClose c) (calls after)) /\
  (forall c, outputAudioContextRef before = Some c ->
     In (ContextClose c) (calls after)) /\
  (forall source, In source (audioSourcesRef before) ->
     In (SourceStop source) (calls after)).

(** ** Messages and a decoder for the worked examples *)

(** The turn-complete signal and nothing else. *)
Definition turnCompleteOnly : LiveServerContent := {|
  inputTranscription := None;
  outputTranscription := None;
  modelTurn := None;
  interrupted := false;
  turnComplete := true
|}.

Definition interruptedMessage : LiveServerMessage :=
  {| serverContent := Some {|
       inputTranscription := None; outputTranscription := None;
       modelTurn := None; interrupted := true; turnComplete := false |} |}.

Definition audioMessage (payload : JSString) : LiveServerMessage :=
  {| serverContent := Some {|
       inputTranscription := None; outputTranscription := None;
       modelTurn :=
         Some {| parts :=
                   Some [ {| inlineData := Some {| data := Some payload |} |} ] |};
       interrupted := false; turnComplete := false |} |}.

(** A source fragment alone. *)
Definition fragmentMessage (fragment : JSString) : LiveServerMessage :=
  {| serverContent := Some {|
       inputTranscription := Some {| text := Some fragment |};
       outputTranscription := None;
       modelTurn := None; interrupted := false; turnComplete := false |} |}.

(** The end of the turn with a model turn that has no [parts]. *)
Definition partlessTurnComplete : LiveServerMessage :=
  {| serverContent := Some {|
       inputTranscription := None; outputTranscription := None;
       modelTurn := Some {| parts := None |};
       interrupted := false; turnComplete := true |} |}.

(** An audio payload and the end of the turn in one message. *)
Definition audioTurnComplete (payload : JSString) : LiveServerMessage :=
  {| serverContent := Some {|
       inputTranscription := None; outputTranscription := None;
       modelTurn :=
         Some {| parts :=
                   Some [ {| inlineData := Some {| data := Some payload |} |} ] |};
       interrupted := false; turnComplete := true |} |}.

(** A source fragment and the end of the turn in one message. *)
Definition closingMessage (fragment : JSString) : LiveServerMessage :=
  {| serverContent := Some {|
       inputTranscription := Some {| text := Some fragment |};
       outputTranscription := None;
       modelTurn := None; interrupted := false; turnComplete := true |} |}.

(** Stands in for the decoder in the examples: one second of audio for
    every code unit of the payload. *)
Definition exampleDecoder (payload : JSString) : AudioBuffer :=
  {| duration := inject_Z (Z.of_nat (length payload)) |}.

(** A session that was opened from the initial state. *)
Definition listening : App :=
  run exampleDecoder initial [Start; GetUserMediaSettled (Fulfilled 0%nat); Open].

(** Two sources playing in an open session: two audio messages, each
    decoded before the next event. *)
Definition twoPlaying : App :=
  run exampleDecoder listening
    [Message 0 0 (audioMessage (js "ab")); DecodeSettled 0 true 0;
     Message (1 # 2) 0 (audioMessage (js "c")); DecodeSettled 0 true 0].

(** The same two messages, the second one handled while the first still
    awaits the decoder. *)
Definition overlapping : list Event :=
  [Message 0 0 (audioMessage (js "ab"));
   Message (1 # 2) 0 (audioMessage (js "c"));
   DecodeSettled 0 true 0; DecodeSettled 0 true 0].

(** ** What the component renders *)

(** Line 50: the block of the turn in progress is rendered when one of
    the two display strings is not empty. *)
Definition inProgressVisible (s : App) : bool :=
  truthy (currentChinese s) || truthy (currentEnglish s).

(** Line 282: the hint below the button. *)
Definition errorHintVisible (s : App) : bool :=
  match status s with ERROR => true | _ => false end.

(** Lines 268-269: the button stops while Listening or Connecting and
    starts otherwise; it is disabled while Connecting. *)
Definition buttonStops (s : App) : bool :=
  match status s with LISTENING | CONNECTING => true | _ => false end.

Definition buttonDisabled (s : App) : bool :=
  match status s with CONNECTING => true | _ => false end.

(** A click on the button; a disabled button fires no handler. *)
Definition onClick (s : App) : App :=
  if buttonDisabled s then s
  else if buttonStops s then handleStopListening s
  else handleStartListening s.

(** ** Vocabulary of the further properties *)

(** A Turn with text on at least one track once trimmed. *)
Definition hasText (turn : TranscriptionTurn) : bool :=
  truthy (trim (chinese turn)) || truthy (trim (english turn)).

(** How often [close()] was called on a context. *)
Fixpoint closeCount (c : AudioContext) (log : list Call) : nat :=
  match log with
  | ContextClose c' :: log' =>
      (if Nat.eqb c c' then 1 else 0) + closeCount c log'
  | _ :: log' => closeCount c log'
  | [] => 0
  end%nat.

(** The sources on which [start()] was called, oldest first. *)
Fixpoint startedSources (log : list Call) : list AudioBufferSourceNode :=
  match log with
  | SourceStart source _ _ :: log' => source :: startedSources log'
  | _ :: log' => startedSources log'
  | [] => []
  end.

(** The calls that release the capture stream, the processor and the
    audio contexts. *)
Definition isRelease (c : Call) : bool :=
  match c with
  | TrackStop _ | ProcessorDisconnect _ | ContextClose _ => true
  | _ => false
  end.

(** The active set and the call log agree: the members are distinct,
    each was started and none was stopped; no source was started twice;
    [stop()] was called on started sources only; the names of started
    sources are used up. *)
Definition SourcesWellFormed (s : App) : Prop :=
  NoDup (audioSourcesRef s) /\
  NoDup (startedSources (calls s)) /\
  (forall source, In source (startedSources (calls s)) ->
     (source < fresh s)%nat) /\
  (forall source, In source (audioSourcesRef s) ->
     In source (startedSources (calls s)) /\
     ~ In (SourceStop source) (calls s)) /\
  (forall source, In (SourceStop source) (calls s) ->
     In source (startedSources (calls s))).

(** The event that hands the capture stream to a pending [start()]. *)
Definition isGranted (e : Event) : bool :=
  match e with
  | GetUserMediaSettled (Fulfilled _) => true
  | _ => false
  end.

(** The events whose handlers write an error text to the display. *)
Definition reportsError (e : Event) : bool :=
  match e with
  | RemoteError _ | GetUserMediaSettled (Rejected _) => true
  | _ => false
  end.

(** No context has had [close()] called on it more than once. *)
Definition ClosedOnce (s : App) : Prop :=
  forall c, (closeCount c (calls s) <= 1)%nat.

(** The calls that concern neither a buffer source nor a release. *)
Definition isPlain (c : Call) : bool :=
  match c with
  | ConsoleError | SessionClose _ | NewAudioContext _ _
  | CreateScriptProcessor _ _ | LiveConnect _ => true
  | _ => false
  end.

(** The playback cursor and every start time passed to [start()] are
    not negative, and neither is a start time that a suspended handler
    holds. *)
Definition StartsNonNegative (s : App) : Prop :=
  0 <= nextStartTimeRef s /\
  Forall (fun played => 0 <= fst played) (starts (calls s)) /\
  Forall (fun held => 0 <= heldStart held) (pendingDecodes s).

(** The transcript as the component holds it: the history, the two
    display strings and the two accumulators. *)
Definition textView (s : App) :=
  (transcriptionHistory s, currentChinese s, currentEnglish s,
   currentChineseRef s, currentEnglishRef s).

(** The events whose handlers write to the transcript. *)
Definition touchesTranscript (e : Event) : bool :=
  match e with
  | Start | Message _ _ _ | RemoteError _
  | GetUserMediaSettled (Rejected _) | DecodeSettled _ _ _ => true
  | _ => false
  end.

(** A whole session: start, grant, open, two buffers of audio whose
    handlers overlap, a turn, stop, and the close event that answers it. *)
Definition sessionEvents : list Event :=
  [Start; GetUserMediaSettled (Fulfilled 0%nat); Open;
   Message 0 1 (audioMessage (js "ab"));
   Message (1 # 2) 2 (audioMessage (js "c"));
   DecodeSettled 1 true 2; DecodeSettled 0 true 2;
   Message 1 3 (closingMessage (js "a"));
   Stop; SessionAwaited true; Close].

(** * Properties *)

(** ** Strings *)

Lemma trimStart_shape (s : JSString) :
  trimStart s = [] \/
  exists c rest, trimStart s = c :: rest /\ isWhiteSpace c = false.
Proof.
  induction s as [|c s IH]; simpl.
  - now left.
  - destruct (isWhiteSpace c) eqn:E; [exact IH|].
    right. now exists c, s.
Qed.

Lemma trimStart_blank (s : JSString) :
  trimStart s = [] <-> forallb isWhiteSpace s = true.
Proof.
  induction s as [|c s IH]; simpl.
  - tauto.
  - destruct (isWhiteSpace c); simpl; [exact IH|].
    split; discriminate.
Qed.

(** [s.trim()] is the empty string exactly when [s] holds nothing but
    white space. *)
Lemma trim_blank (s : JSString) :
  trim s = [] <-> forallb isWhiteSpace s = true.
Proof.
  unfold trim, trimEnd. rewrite <- trimStart_blank. split.
  - intros H.
    assert (H1 : trimStart (rev (trimStart s)) = []).
    { destruct (trimStart (rev (trimStart s))) as [|x l]; [reflexivity|].
      simpl in H. now destruct (rev l). }
    destruct (trimStart_shape s) as [H0 | (c & rest & H0 & Hc)]; [exact H0|].
    apply trimStart_blank in H1. rewrite forallb_forall in H1.
    specialize (H1 c). rewrite Hc in H1.
    assert (Hin : In c (rev (trimStart s))).
    { rewrite <- in_rev, H0. now left. }
    discriminate (H1 Hin).
  - intros ->. reflexivity.
Qed.

(** ** Frame lemmas for the call log *)

Lemma starts_app (l1 l2 : list Call) :
  starts (l1 ++ l2) = starts l1 ++ starts l2.
Proof.
  induction l1 as [|c l1 IH]; simpl; [reflexivity|].
  destruct c; simpl; now rewrite ?IH.
Qed.

(** Stopping the sources only writes to the call log. *)
Lemma stopAllSources_calls (s : App) :
  stopAllSources s =
  set_calls (calls s ++ map SourceStop (audioSourcesRef s)) s.
Proof.
  unfold stopAllSources.
  generalize (audioSourcesRef s) as l. intros l. revert s.
  induction l as [|x l IH]; intros s; simpl.
  - destruct s; simpl. now rewrite app_nil_r.
  - rewrite IH. destruct s; simpl. now rewrite <- app_assoc.
Qed.

(** ** The playback scheduler *)

Section Scheduler.

Variable decodeAudioData : JSString -> AudioBuffer.

Lemma calls_schedule (t : Q) (payload : JSString) (s : App) :
  calls (schedule decodeAudioData t payload s) =
  calls s ++ [SourceStart (fresh s) (decodeAudioData payload)
                          (Math_max (nextStartTimeRef s) t)].
Proof. destruct s; reflexivity. Qed.

Lemma nextStartTimeRef_schedule (t : Q) (payload : JSString) (s : App) :
  nextStartTimeRef (schedule decodeAudioData t payload s) =
  Math_max (nextStartTimeRef s) t + duration (decodeAudioData payload).
Proof. destruct s; reflexivity. Qed.

Lemma starts_scheduleAll (submissions : list (Q * JSString)) (s : App) :
  starts (calls (scheduleAll decodeAudioData submissions s)) =
  starts (calls s) ++ timeline decodeAudioData submissions s.
Proof.
  revert s. induction submissions as [|sub rest IH]; intros s.
  - simpl. now rewrite app_nil_r.
  - unfold scheduleAll in *. simpl. rewrite IH, calls_schedule, starts_app.
    simpl. now rewrite <- app_assoc.
Qed.

Lemma scheduledBy_timeline (submissions : list (Q * JSString)) (s : App) :
  scheduledBy decodeAudioData submissions s =
  timeline decodeAudioData submissions s.
Proof.
  unfold scheduledBy. rewrite starts_scheduleAll.
  generalize (starts (calls s)) as l.
  induction l as [|x l IH]; simpl; auto.
Qed.

Lemma timeline_length (submissions : list (Q * JSString)) (s : App) :
  length (timeline decodeAudioData submissions s) = length submissions.
Proof.
  revert s. induction submissions as [|sub rest IH]; intros s; simpl; auto.
Qed.

(** The [i]-th entry of the timeline is what [schedule] computes in the
    state that the first [i] submissions leave. *)
Lemma timeline_nth (submissions : list (Q * JSString)) :
  forall (s : App) (i : nat) (t : Q) (payload : JSString),
    nth_error submissions i = Some (t, payload) ->
    nth_error (timeline decodeAudioData submissions s) i =
    Some (Math_max
            (nextStartTimeRef
               (scheduleAll decodeAudioData (firstn i submissions) s)) t,
          duration (decodeAudioData payload)).
Proof.
  induction submissions as [|sub rest IH]; intros s i t payload H.
  - destruct i; discriminate.
  - destruct i as [|i]; simpl in *.
    + injection H as ->. reflexivity.
    + unfold scheduleAll in *. simpl. now apply IH.
Qed.

(** Each buffer starts no earlier than the previous one, and no earlier
    than the previous one ends. *)
Lemma timeline_adjacent (submissions : list (Q * JSString)) :
  (forall sub, In sub submissions ->
     0 <= duration (decodeAudioData (snd sub))) ->
  forall (s : App) (i : nat) (a b : Q * Q),
    nth_error (timeline decodeAudioData submissions s) i = Some a ->
    nth_error (timeline decodeAudioData submissions s) (S i) = Some b ->
    fst a <= fst b /\ fst a + snd a <= fst b.
Proof.
  induction submissions as [|sub rest IH]; intros Hd s i a b Ha Hb.
  - destruct i; discriminate.
  - destruct i as [|i].
    + simpl in Ha, Hb. injection Ha as <-.
      destruct rest as [|sub' rest']; [discriminate|].
      simpl in Hb. injection Hb as <-.
      rewrite nextStartTimeRef_schedule. cbn [fst snd].
      assert (Hend :
        Math_max (nextStartTimeRef s) (fst sub) +
          duration (decodeAudioData (snd sub)) <=
        Math_max (Math_max (nextStartTimeRef s) (fst sub) +
                    duration (decodeAudioData (snd sub))) (fst sub'))
        by apply Q.le_max_l.
      split; [|exact Hend].
      assert (H0 : 0 <= duration (decodeAudioData (snd sub)))
        by (apply Hd; now left).
      eapply Qle_trans; [|exact Hend]. lra.
    + simpl in Ha, Hb. eapply IH; eauto.
      intros sub' Hin. apply Hd. now right.
Qed.

(** Audio payloads whose handlers nothing interleaves, each resumed with
    its buffer before the next is submitted: each buffer starts at
    max(nextStartTime, device time) as read at its submission, and
    nextStartTime then becomes that start plus the buffer's duration;
    with durations that are not negative the start times never decrease,
    and each buffer starts no earlier than the previous one ends.  A 2 s
    buffer submitted at device time 0 starts at 0, and a 1 s buffer
    submitted after it at device time 0.5 starts at 2. *)
Theorem schedule_gapless :
  (forall (s : App) (submissions : list (Q * JSString)),
     (forall sub, In sub submissions ->
        0 <= duration (decodeAudioData (snd sub))) ->
     let played := scheduledBy decodeAudioData submissions s in
     length played = length submissions /\
     (forall i t payload,
        nth_error submissions i = Some (t, payload) ->
        let before := scheduleAll decodeAudioData (firstn i submissions) s in
        let startAt := Math_max (nextStartTimeRef before) t in
        nth_error played i = Some (startAt, duration (decodeAudioData payload)) /\
        nextStartTimeRef (schedule decodeAudioData t payload before) =
        startAt + duration (decodeAudioData payload)) /\
     (forall i a b,
        nth_error played i = Some a -> nth_error played (S i) = Some b ->
        fst a <= fst b /\ fst a + snd a <= fst b)) /\
  (forall (s : App) (bufferA bufferB : JSString),
     nextStartTimeRef s = 0 ->
     duration (decodeAudioData bufferA) = 2 ->
     duration (decodeAudioData bufferB) = 1 ->
     scheduledBy decodeAudioData [(0, bufferA); (1 # 2, bufferB)] s =
     [(0, 2); (2, 1)]).
Proof.
  split.
  - intros s submissions Hd played. subst played.
    rewrite scheduledBy_timeline. split; [apply timeline_length|]. split.
    + intros i t payload H. cbv zeta. split.
      * now apply timeline_nth.
      * apply nextStartTimeRef_schedule.
    + intros i a b. now apply timeline_adjacent.
  - intros s bufferA bufferB Hs Ha Hb.
    rewrite scheduledBy_timeline. simpl.
    rewrite nextStartTimeRef_schedule. simpl. rewrite Hs, Ha, Hb.
    reflexivity.
Qed.

End Scheduler.

(** ** Teardown *)

Lemma isClosed_In (c : AudioContext) (log : list Call) :
  isClosed c log = true -> In (ContextClose c) log.
Proof.
  unfold isClosed. rewrite existsb_exists.
  intros (e & Hin & He). destruct e; try discriminate.
  apply Nat.eqb_eq in He. now subst.
Qed.

(** Splits [cleanUpAudio] into the cases of its guards. *)
Ltac cleanUp_cases s :=
  destruct s as [st hi cc ce sp sr ac pr oc ns so ccr cer lg fr ps pp];
  unfold cleanUpAudio, flush, closeContext; simpl;
  destruct sr, pr, ac, oc; simpl;
  repeat match goal with
         | |- context [isClosed ?c ?l] => destruct (isClosed c l) eqn:?; simpl
         end;
  rewrite stopAllSources_calls; simpl.

Lemma cleanUpAudio_TornDown (s : App) : TornDown s (cleanUpAudio s).
Proof.
  unfold TornDown. cleanUp_cases s.
  all: repeat match goal with
       | H : isClosed _ _ = true |- _ => apply isClosed_In in H
       end.
  all: repeat split; try reflexivity; try discriminate.
  all: intros x Hx; try (injection Hx as <-).
  all: repeat rewrite in_app_iff in *; simpl in *.
  all: try (apply (in_map SourceStop) in Hx); tauto.
Qed.

(** What teardown leaves alone. *)
Lemma cleanUpAudio_frame (s : App) :
  status (cleanUpAudio s) = status s /\
  transcriptionHistory (cleanUpAudio s) = transcriptionHistory s /\
  currentChinese (cleanUpAudio s) = currentChinese s /\
  currentEnglish (cleanUpAudio s) = currentEnglish s /\
  sessionPromiseRef (cleanUpAudio s) = sessionPromiseRef s /\
  currentChineseRef (cleanUpAudio s) = currentChineseRef s /\
  currentEnglishRef (cleanUpAudio s) = currentEnglishRef s.
Proof. cleanUp_cases s; repeat split. Qed.

(** Teardown of a state that holds nothing changes nothing. *)
Lemma cleanUpAudio_fixed (s : App) :
  streamRef s = None -> processorRef s = None ->
  audioContextRef s = None -> outputAudioContextRef s = None ->
  audioSourcesRef s = [] -> nextStartTimeRef s = 0 ->
  cleanUpAudio s = s.
Proof.
  destruct s as [st hi cc ce sp sr ac pr oc ns so ccr cer lg fr ps pp].
  simpl. intros -> -> -> -> -> ->.
  reflexivity.
Qed.

Lemma finishStop_fixed (s : App) : finishStop (finishStop s) = finishStop s.
Proof.
  unfold finishStop at 1.
  destruct (cleanUpAudio_TornDown s) as (H1 & H2 & H3 & H4 & H5 & H6 & _).
  rewrite cleanUpAudio_fixed;
    unfold finishStop; now destruct (cleanUpAudio s).
Qed.

Lemma Math_max_zero (t : Q) : 0 <= t -> Math_max 0 t == t.
Proof. intros H. unfold Math_max. now apply Q.max_r. Qed.

Section Flush.

Variable decodeAudioData : JSString -> AudioBuffer.

(** An interruption signal alone is a flush. *)
Lemma onmessage_interrupted (t : Q) (dateNow : Z) (s : App) :
  onmessage t dateNow interruptedMessage s = flush s.
Proof. reflexivity. Qed.

Lemma removeAt_last (A : Type) (l : list A) (x : A) :
  nth_error (l ++ [x]) (length l) = Some x /\
  removeAt (length l) (l ++ [x]) = l.
Proof.
  unfold removeAt. induction l as [|y l [IH1 IH2]].
  - now split.
  - split; [exact IH1|].
    change (y :: (firstn (length l) (l ++ [x]) ++
                  skipn (S (length l)) (l ++ [x])) = y :: l).
    now f_equal.
Qed.

(** An audio message alone, handled with an output context at hand and
    resumed with its buffer before any other event, is a [schedule]. *)
Lemma uninterrupted_audio
    (t : Q) (dateNow dateNow' : Z) (payload : JSString) (s : App) :
  truthy payload = true -> outputAudioContextRef s <> None ->
  run decodeAudioData s
    [Message t dateNow (audioMessage payload);
     DecodeSettled (length (pendingDecodes s)) true dateNow'] =
  schedule decodeAudioData t payload s.
Proof.
  intros Hp Hc. unfold run. simpl. unfold onmessage. simpl.
  destruct (outputAudioContextRef s) eqn:E; [|congruence].
  rewrite Hp.
  replace (pendingDecodes (suspend _ s))
    with (pendingDecodes s ++
          [{| heldStart := Math_max (nextStartTimeRef s) t;
              heldPayload := payload;
              heldContent :=
                {| inputTranscription := None; outputTranscription := None;
                   modelTurn :=
                     Some {| parts :=
                       Some [{| inlineData := Some {| data := Some payload |} |}] |};
                   interrupted := false; turnComplete := false |} |}])
    by (now destruct s).
  destruct (removeAt_last (pendingDecodes s)
              {| heldStart := Math_max (nextStartTimeRef s) t;
                 heldPayload := payload;
                 heldContent :=
                   {| inputTranscription := None; outputTranscription := None;
                      modelTurn :=
                        Some {| parts :=
                          Some [{| inlineData := Some {| data := Some payload |} |}] |};
                      interrupted := false; turnComplete := false |} |})
    as [-> ->].
  unfold onmessage_resume, finishMessage, schedule. simpl.
  now destruct s.
Qed.

(** C5. A flush, whether by the interruption signal or inside teardown,
    calls [stop()] on every source of the active set, leaves the set empty
    and puts nextStartTime back to zero, whatever the number of active
    sources; a buffer scheduled next at device time [t] starts at [t]. *)
Theorem flush_resets (s : App) :
  ((forall source, In source (audioSourcesRef s) ->
      In (SourceStop source) (calls (flush s))) /\
   audioSourcesRef (flush s) = [] /\
   nextStartTimeRef (flush s) = 0) /\
  (forall t dateNow,
     onmessage t dateNow interruptedMessage s = flush s) /\
  ((forall source, In source (audioSourcesRef s) ->
      In (SourceStop source) (calls (cleanUpAudio s))) /\
   audioSourcesRef (cleanUpAudio s) = [] /\
   nextStartTimeRef (cleanUpAudio s) = 0) /\
  (forall t payload, 0 <= t ->
     exists startAt,
       scheduledBy decodeAudioData [(t, payload)] (flush s) =
       [(startAt, duration (decodeAudioData payload))] /\
       startAt == t).
Proof.
  split; [|split; [|split]].
  - unfold flush. rewrite stopAllSources_calls.
    destruct s; simpl. repeat split.
    intros source H. apply in_or_app. right. now apply in_map.
  - intros t dateNow. apply onmessage_interrupted.
  - destruct (cleanUpAudio_TornDown s)
      as (_ & _ & _ & _ & H5 & H6 & _ & _ & _ & _ & H11).
    auto.
  - intros t payload Ht.
    exists (Math_max (nextStartTimeRef (flush s)) t).
    rewrite scheduledBy_timeline. split; [reflexivity|].
    replace (nextStartTimeRef (flush s)) with 0.
    + now apply Math_max_zero.
    + unfold flush. rewrite stopAllSources_calls. now destruct s.
Qed.

End Flush.

(** ** The session controller *)

(** C9. The close handler keeps the status Error when it is Error and
    makes it Idle otherwise, and in both cases tears everything down. *)
Theorem onclose_status_and_teardown (s : App) :
  status (onclose s) = match status s with ERROR => ERROR | _ => IDLE end /\
  TornDown s (onclose s).
Proof.
  unfold onclose. split.
  - destruct (cleanUpAudio_frame
                (setStatus match status s with ERROR => ERROR | _ => IDLE end s))
      as (-> & _).
    now destruct s.
  - destruct s. exact (cleanUpAudio_TornDown _).
Qed.

(** C7. A second [stop()] right after a completed one, the session
    reference being cleared and the status Idle, changes nothing at all:
    the state it returns is the state the first call left, be it the call
    that found no session or the one that resumed after its [await]. *)
Theorem stop_twice (s : App) :
  (sessionPromiseRef s = None ->
   let first := handleStopListening s in
   status first = IDLE /\ sessionPromiseRef first = None /\
   handleStopListening first = first) /\
  (forall p fulfilled,
   let first := handleStopListening_resume p fulfilled s in
   status first = IDLE /\ sessionPromiseRef first = None /\
   handleStopListening first = first).
Proof.
  assert (Hfin : forall s', sessionPromiseRef s' = None ->
            status (finishStop s') = IDLE /\
            sessionPromiseRef (finishStop s') = None /\
            handleStopListening (finishStop s') = finishStop s').
  { intros s' Hs'.
    assert (Hp : sessionPromiseRef (finishStop s') = None).
    { unfold finishStop.
      destruct (cleanUpAudio_frame s') as (_ & _ & _ & _ & H & _).
      rewrite <- Hs', <- H. now destruct (cleanUpAudio s'). }
    split; [|split; [exact Hp|]].
    - unfold finishStop. now destruct (cleanUpAudio s').
    - unfold handleStopListening. rewrite Hp. apply finishStop_fixed. }
  split.
  - intros Hs first. subst first.
    replace (handleStopListening s) with (finishStop s)
      by (unfold handleStopListening; now rewrite Hs).
    now apply Hfin.
  - intros p fulfilled first. subst first.
    unfold handleStopListening_resume. apply Hfin.
    now destruct fulfilled, s.
Qed.

(** ** The transcript aggregator *)

Lemma appendAll_accumulates (fragments : list (Track * JSString)) :
  forall s : App,
    currentChineseRef (appendAll fragments s) =
      currentChineseRef s ++ textOf SourceTrack fragments /\
    currentEnglishRef (appendAll fragments s) =
      currentEnglishRef s ++ textOf TargetTrack fragments /\
    transcriptionHistory (appendAll fragments s) = transcriptionHistory s.
Proof.
  induction fragments as [|[track fragment] rest IH]; intros s.
  - unfold textOf. simpl. now rewrite !app_nil_r.
  - unfold appendAll in *. simpl.
    destruct (IH (appendFragment track fragment s)) as (-> & -> & ->).
    unfold textOf. destruct track, s; simpl; now rewrite <- ?app_assoc.
Qed.

Lemma completeTurn_clears (dateNow : Z) (s : App) :
  currentChinese (completeTurn dateNow s) = [] /\
  currentEnglish (completeTurn dateNow s) = [] /\
  currentChineseRef (completeTurn dateNow s) = [] /\
  currentEnglishRef (completeTurn dateNow s) = [].
Proof.
  unfold completeTurn.
  destruct (truthy (trim (currentChineseRef s)) ||
            truthy (trim (currentEnglishRef s))); now destruct s.
Qed.

Lemma truthy_false (x : JSString) : truthy x = false <-> x = [].
Proof. destruct x; simpl; split; congruence. Qed.

Lemma completeTurn_history (dateNow : Z) (s : App) :
  transcriptionHistory (completeTurn dateNow s) =
  if truthy (trim (currentChineseRef s)) || truthy (trim (currentEnglishRef s))
  then transcriptionHistory s ++
       [{| id := dateNow; chinese := currentChineseRef s;
           english := currentEnglishRef s |}]
  else transcriptionHistory s.
Proof.
  unfold completeTurn.
  destruct (truthy (trim (currentChineseRef s)) ||
            truthy (trim (currentEnglishRef s))); now destruct s.
Qed.

(** C2. With both accumulators empty after the previous completion, and
    any fragments appended since: when the source and the target text both
    trim to the empty string, [completeTurn] leaves the history as it was;
    otherwise it appends one Turn whose two texts are the concatenations
    of the fragments of each track, in order, also when only one track has
    text.  In both cases the accumulators are cleared. *)
Theorem completeTurn_emits
    (s : App) (fragments : list (Track * JSString)) (dateNow : Z) :
  currentChineseRef s = [] -> currentEnglishRef s = [] ->
  let sourceText := textOf SourceTrack fragments in
  let targetText := textOf TargetTrack fragments in
  let after := completeTurn dateNow (appendAll fragments s) in
  currentChineseRef after = [] /\ currentEnglishRef after = [] /\
  (trim sourceText = [] /\ trim targetText = [] ->
   transcriptionHistory after = transcriptionHistory s) /\
  (~ (trim sourceText = [] /\ trim targetText = []) ->
   transcriptionHistory after =
     transcriptionHistory s ++
     [{| id := dateNow; chinese := sourceText; english := targetText |}] /\
   length (transcriptionHistory after) = S (length (transcriptionHistory s))).
Proof.
  intros Hc He sourceText targetText after. subst sourceText targetText after.
  destruct (appendAll_accumulates fragments s) as (Hsrc & Htgt & Hhist).
  rewrite Hc in Hsrc. rewrite He in Htgt. simpl in Hsrc, Htgt.
  destruct (completeTurn_clears dateNow (appendAll fragments s))
    as (_ & _ & -> & ->).
  rewrite completeTurn_history, Hsrc, Htgt, Hhist.
  split; [reflexivity|]. split; [reflexivity|]. split.
  - intros [H1 H2]. now rewrite H1, H2.
  - intros Hne.
    assert (E : truthy (trim (textOf SourceTrack fragments)) ||
                truthy (trim (textOf TargetTrack fragments)) = true).
    { destruct (truthy (trim (textOf SourceTrack fragments))) eqn:E1;
        [reflexivity|].
      destruct (truthy (trim (textOf TargetTrack fragments))) eqn:E2;
        [reflexivity|].
      apply truthy_false in E1, E2. tauto. }
    rewrite E. split; [reflexivity|].
    rewrite length_app. simpl. lia.
Qed.

(** ** Runs of the component *)

Section Controller.

Variable decodeAudioData : JSString -> AudioBuffer.

(** When the handler reaches the end of a turn, lines 221-224 clear the
    accumulators and the display strings, with or without a Turn. *)
Lemma finishMessage_clears (dateNow : Z) (c : LiveServerContent) (s : App) :
  turnComplete c = true ->
  currentChineseRef (finishMessage dateNow c s) = [] /\
  currentEnglishRef (finishMessage dateNow c s) = [] /\
  currentChinese (finishMessage dateNow c s) = [] /\
  currentEnglish (finishMessage dateNow c s) = [].
Proof.
  intros Hc. unfold finishMessage. rewrite Hc.
  match goal with
  | |- context [completeTurn dateNow ?x] =>
      destruct (completeTurn_clears dateNow x) as (H1 & H2 & H3 & H4)
  end.
  tauto.
Qed.

(** C10, at the inputs where the code departs from it.  A turn-complete
    signal in a message whose model turn has no [parts] clears nothing:
    line 181 throws and the handler changes nothing at all, so a source
    fragment accumulated before stays in the accumulator and on display.
    The same holds when the signal comes with an audio payload that the
    decoder rejects: the handler ends at line 188. *)
Theorem turnComplete_lost (t : Q) (dateNow : Z) :
  (forall s : App, onmessage t dateNow partlessTurnComplete s = s) /\
  (let after :=
     run decodeAudioData listening
       [Message t dateNow (fragmentMessage (js "a"));
        Message t dateNow partlessTurnComplete] in
   currentChineseRef after = js "a" /\ currentChinese after = js "a" /\
   transcriptionHistory after = []) /\
  (let after :=
     run decodeAudioData listening
       [Message t dateNow (fragmentMessage (js "a"));
        Message t dateNow (audioTurnComplete (js "ab"));
        DecodeSettled 0 false dateNow] in
   currentChineseRef after = js "a" /\ currentChinese after = js "a" /\
   transcriptionHistory after = []).
Proof.
  split; [|split].
  - intros s. reflexivity.
  - repeat split.
  - repeat split.
Qed.

(** *** The history under each handler *)

Lemma history_finishStop (s : App) :
  transcriptionHistory (finishStop s) = transcriptionHistory s.
Proof.
  destruct (cleanUpAudio_frame s) as (_ & <- & _).
  unfold finishStop. now destruct (cleanUpAudio s).
Qed.

Lemma history_handleStopListening (s : App) :
  transcriptionHistory (handleStopListening s) = transcriptionHistory s.
Proof.
  unfold handleStopListening. destruct (sessionPromiseRef s).
  - now destruct s.
  - apply history_finishStop.
Qed.

Lemma history_handleStopListening_resume
    (p : SessionPromise) (fulfilled : bool) (s : App) :
  transcriptionHistory (handleStopListening_resume p fulfilled s) =
  transcriptionHistory s.
Proof.
  unfold handleStopListening_resume. rewrite history_finishStop.
  now destruct fulfilled, s.
Qed.

Lemma history_handleStartListening_resume (r : Settled MediaStream) (s : App) :
  transcriptionHistory (handleStartListening_resume r s) =
  transcriptionHistory s.
Proof.
  destruct r as [stream | error]; simpl.
  - now destruct s.
  - match goal with
    | |- context [cleanUpAudio ?x] =>
        destruct (cleanUpAudio_frame x) as (_ & -> & _)
    end.
    now destruct s.
Qed.

Lemma history_flush (s : App) :
  transcriptionHistory (flush s) = transcriptionHistory s.
Proof. unfold flush. rewrite stopAllSources_calls. now destruct s. Qed.

Lemma history_finishMessage (dateNow : Z) (c : LiveServerContent) (s : App) :
  transcriptionHistory (finishMessage dateNow c s) = transcriptionHistory s \/
  exists turn,
    id turn = dateNow /\
    transcriptionHistory (finishMessage dateNow c s) =
    transcriptionHistory s ++ [turn].
Proof.
  unfold finishMessage.
  assert (H : transcriptionHistory (if interrupted c then flush s else s) =
              transcriptionHistory s)
    by (destruct (interrupted c); [apply history_flush|reflexivity]).
  rewrite <- H. destruct (turnComplete c); [|now left].
  rewrite completeTurn_history.
  destruct (truthy (trim (currentChineseRef (if interrupted c then flush s else s))) ||
            truthy (trim (currentEnglishRef (if interrupted c then flush s else s))));
    [right|now left].
  eexists. split; [|reflexivity]. reflexivity.
Qed.

Lemma history_onmessage_shape
    (currentTime : Q) (dateNow : Z) (message : LiveServerMessage) (s : App) :
  transcriptionHistory (onmessage currentTime dateNow message s) =
    transcriptionHistory s \/
  exists turn,
    id turn = dateNow /\
    transcriptionHistory (onmessage currentTime dateNow message s) =
    transcriptionHistory s ++ [turn].
Proof.
  unfold onmessage. destruct (serverContent message) as [c|]; [|now left].
  set (s1 := match inputTranscription c with
             | Some t => appendFragment SourceTrack (fragmentOf t) s
             | None => s
             end).
  assert (H1 : transcriptionHistory s1 = transcriptionHistory s).
  { subst s1. destruct (inputTranscription c); now destruct s. }
  set (s2 := match outputTranscription c with
             | Some t => appendFragment TargetTrack (fragmentOf t) s1
             | None => s1
             end).
  assert (H2 : transcriptionHistory s2 = transcriptionHistory s1).
  { subst s2. destruct (outputTranscription c); now destruct s1. }
  rewrite <- H1, <- H2.
  destruct (audioPayload c) as [[payload|]|]; [| |now left].
  - destruct (outputAudioContextRef s2); [|apply history_finishMessage].
    destruct (truthy payload); [|apply history_finishMessage].
    left. now destruct s2.
  - apply history_finishMessage.
Qed.

Lemma history_onmessage_resume
    (held : Suspended) (fulfilled : bool) (dateNow : Z) (s : App) :
  transcriptionHistory (onmessage_resume decodeAudioData held fulfilled dateNow s) =
    transcriptionHistory s \/
  exists turn,
    id turn = dateNow /\
    transcriptionHistory (onmessage_resume decodeAudioData held fulfilled dateNow s) =
    transcriptionHistory s ++ [turn].
Proof.
  unfold onmessage_resume. destruct fulfilled; [|now left].
  replace (transcriptionHistory s)
    with (transcriptionHistory
            (startSource (heldStart held)
               (decodeAudioData (heldPayload held)) s))
    by (now destruct s).
  apply history_finishMessage.
Qed.

Lemma history_onmessage
    (currentTime : Q) (dateNow : Z) (message : LiveServerMessage) (s : App) :
  transcriptionHistory (onmessage currentTime dateNow message s) =
    transcriptionHistory s \/
  exists turn,
    transcriptionHistory (onmessage currentTime dateNow message s) =
    transcriptionHistory s ++ [turn].
Proof.
  destruct (history_onmessage_shape currentTime dateNow message s)
    as [H | (turn & _ & H)]; [now left | right; eauto].
Qed.

Lemma history_step (s : App) (e : Event) :
  e <> Start ->
  transcriptionHistory (step decodeAudioData s e) = transcriptionHistory s \/
  exists turn,
    transcriptionHistory (step decodeAudioData s e) =
    transcriptionHistory s ++ [turn].
Proof.
  intros He. destruct e; simpl; try congruence.
  - left. destruct (pendingStarts s) as [|n]; [reflexivity|].
    rewrite history_handleStartListening_resume. now destruct s.
  - left. apply history_handleStopListening.
  - left. destruct (pendingStops s) as [|p rest]; [reflexivity|].
    rewrite history_handleStopListening_resume. now destruct s.
  - left. now destruct s.
  - apply history_onmessage.
  - left. unfold onerror. rewrite history_handleStopListening. now destruct s.
  - left. unfold onclose.
    match goal with
    | |- context [cleanUpAudio ?x] =>
        destruct (cleanUpAudio_frame x) as (_ & -> & _)
    end.
    now destruct s.
  - left. now destruct s.
  - destruct (nth_error (pendingDecodes s) index) as [held|]; [|now left].
    match goal with
    | |- context [onmessage_resume _ _ _ _ ?x] =>
        replace (transcriptionHistory s) with (transcriptionHistory x)
          by (now destruct s);
        destruct (history_onmessage_resume held fulfilled dateNow x)
          as [H | (turn & _ & H)]; [now left | right; eauto]
    end.
Qed.

(** C8. Every event but [start()] leaves the history as it is or appends
    one Turn at its end; a remote error leaves it as it is; [start()]
    empties it; hence over any run without [start()] the history only
    grows at its end. *)
Theorem history_append_only :
  (forall (s : App) (e : Event), e <> Start ->
     transcriptionHistory (step decodeAudioData s e) = transcriptionHistory s \/
     exists turn,
       transcriptionHistory (step decodeAudioData s e) =
       transcriptionHistory s ++ [turn]) /\
  (forall (s : App) (message : JSString) (fulfilled : bool),
     transcriptionHistory
       (run decodeAudioData s [RemoteError message; SessionAwaited fulfilled]) =
     transcriptionHistory s) /\
  (forall s : App, transcriptionHistory (step decodeAudioData s Start) = []) /\
  (forall (events : list Event) (s : App), ~ In Start events ->
     exists added,
       transcriptionHistory (run decodeAudioData s events) =
       transcriptionHistory s ++ added).
Proof.
  split; [exact history_step|]. split; [|split].
  - intros s message fulfilled. unfold run. simpl.
    assert (He : transcriptionHistory (onerror message s) = transcriptionHistory s).
    { unfold onerror. rewrite history_handleStopListening. now destruct s. }
    destruct (pendingStops (onerror message s)) as [|p rest]; [exact He|].
    rewrite history_handleStopListening_resume, <- He.
    now destruct (onerror message s).
  - intros s. now destruct s.
  - induction events as [|e events IH]; intros s Hn.
    + exists []. simpl. now rewrite app_nil_r.
    + assert (He : e <> Start) by (intros ->; apply Hn; now left).
      destruct (IH (step decodeAudioData s e)) as [added Hadd].
      { intros Hin. apply Hn. now right. }
      unfold run in *. simpl. rewrite Hadd.
      destruct (history_step s He) as [-> | [turn ->]].
      * now exists added.
      * exists (turn :: added). now rewrite <- app_assoc.
Qed.

(** *** Status *)

Lemma status_finishStop (s : App) : status (finishStop s) = IDLE.
Proof. unfold finishStop. now destruct (cleanUpAudio s). Qed.

(** Teardown opens no session. *)
Lemma cleanUpAudio_no_connect (s : App) (p : SessionPromise) :
  In (LiveConnect p) (calls (cleanUpAudio s)) -> In (LiveConnect p) (calls s).
Proof.
  cleanUp_cases s.
  all: repeat rewrite in_app_iff; simpl; rewrite in_map_iff.
  all: intros H; decompose [or ex and] H; try assumption; try discriminate;
       try contradiction.
Qed.

(** C4, as the code has it.  When [start()] fails at the acquisition of
    the capture device, the status is Connecting from the first statement
    of [start()] until the failure and Error after it, never Listening,
    and no remote session is opened: the session reference is untouched
    and no [connect] is called. *)
Theorem start_failure_statuses (s : App) (error : Thrown) :
  let events := [Start; GetUserMediaSettled (Rejected error)] in
  statuses decodeAudioData s events = [CONNECTING; ERROR] /\
  sessionPromiseRef (run decodeAudioData s events) = sessionPromiseRef s /\
  (forall p, In (LiveConnect p) (calls (run decodeAudioData s events)) ->
             In (LiveConnect p) (calls s)).
Proof.
  destruct s as [st hi cc ce sp sr ac pr oc ns so ccr cer lg fr ps pp].
  unfold run. simpl.
  match goal with
  | |- context [cleanUpAudio ?x] =>
      destruct (cleanUpAudio_frame x) as (Hst & _ & _ & _ & Hsp & _);
      pose proof (cleanUpAudio_no_connect x) as Hcalls
  end.
  simpl in Hst, Hsp, Hcalls. rewrite Hst, Hsp.
  repeat split. intros p Hp. apply Hcalls in Hp.
  apply in_app_iff in Hp. destruct Hp as [Hp|[Hp|[]]];
    [assumption | discriminate].
Qed.

(** C3, at the input where the code departs from it.  Whatever the state,
    once the error handler and the [handleStopListening] it calls have
    run, the status is Idle; in a session that was open the status is
    Error only until that call resumes.  And [stop()] in status Error is
    no no-op: after a failed start it makes the status Idle. *)
Theorem remote_error_ends_Idle
    (s : App) (message : JSString) (fulfilled : bool) (error : Thrown) :
  status (run decodeAudioData s
            [RemoteError message; SessionAwaited fulfilled]) = IDLE /\
  (status (step decodeAudioData listening (RemoteError message)) = ERROR /\
   status (run decodeAudioData listening
             [RemoteError message; SessionAwaited fulfilled]) = IDLE) /\
  (status (run decodeAudioData initial
             [Start; GetUserMediaSettled (Rejected error)]) = ERROR /\
   status (run decodeAudioData initial
             [Start; GetUserMediaSettled (Rejected error); Stop]) = IDLE).
Proof.
  split; [|split; [split|split]]; try reflexivity.
  - unfold run. simpl.
    destruct (pendingStops (onerror message s)) as [|p rest] eqn:E.
    + revert E. unfold onerror, handleStopListening.
      destruct s as [st hi cc ce sp sr ac pr oc ns so ccr cer lg fr ps pp].
      simpl. destruct sp as [p|]; simpl.
      * intros E. now destruct pp.
      * intros _. apply status_finishStop.
    + apply status_finishStop.
  - now destruct fulfilled.
Qed.

(** C6, at the input where the code departs from it.  Two turns that
    complete while [Date.now()] reads the same millisecond enter the
    history as two different Turns with one identifier. *)
Theorem same_millisecond_same_id (t1 t2 : Q) (dateNow : Z) :
  let s := run decodeAudioData listening
             [Message t1 dateNow (closingMessage (js "a"));
              Message t2 dateNow (closingMessage (js "b"))] in
  exists first second,
    transcriptionHistory s = [first; second] /\
    first <> second /\ id first = id second.
Proof.
  exists {| id := dateNow; chinese := js "a"; english := [] |},
         {| id := dateNow; chinese := js "b"; english := [] |}.
  repeat split. discriminate.
Qed.

(** C1, at the input where the code departs from it.  A 2 s buffer is
    submitted at device time 0 and a 1 s buffer at device time 0.5 while
    the handler of the first still awaits the decoder: the second handler
    reads the cursor before the first has written it, so the second buffer
    starts at 0.5, inside the first, and the cursor ends at 1.5.  Only
    when the first handler resumes before the second is submitted does the
    second buffer start at 2.  Every number here is a binary fraction, so
    the sums are the same in the doubles of the source. *)
Theorem overlapping_handlers_overlap
    (bufferA bufferB : JSString) (d1 d2 d3 d4 : Z) :
  truthy bufferA = true -> truthy bufferB = true ->
  duration (decodeAudioData bufferA) = 2 ->
  duration (decodeAudioData bufferB) = 1 ->
  let interleaved :=
    run decodeAudioData listening
      [Message 0 d1 (audioMessage bufferA);
       Message (1 # 2) d2 (audioMessage bufferB);
       DecodeSettled 0 true d3; DecodeSettled 0 true d4] in
  let sequential :=
    run decodeAudioData listening
      [Message 0 d1 (audioMessage bufferA); DecodeSettled 0 true d3;
       Message (1 # 2) d2 (audioMessage bufferB); DecodeSettled 0 true d4] in
  (starts (calls interleaved) = [(0, 2); (1 # 2, 1)] /\
   nextStartTimeRef interleaved = 3 # 2) /\
  (starts (calls sequential) = [(0, 2); (2, 1)] /\
   nextStartTimeRef sequential = 3).
Proof.
  intros Ha Hb Da Db.
  destruct bufferA as [|a bufferA]; [discriminate|].
  destruct bufferB as [|b bufferB]; [discriminate|].
  unfold run. simpl. rewrite Da, Db. repeat split.
Qed.

End Controller.

(** * Worked instances *)

(** The status does pass through Connecting when the capture device is
    refused. *)
Lemma start_failure_passes_Connecting :
  ~ (forall st,
       In st (statuses exampleDecoder initial
                [Start;
                 GetUserMediaSettled
                   (Rejected (ErrorObject (js "Permission denied")))]) ->
       st <> CONNECTING /\ st <> LISTENING).
Proof.
  intros H. destruct (H CONNECTING) as [Hc _].
  - simpl. now left.
  - now apply Hc.
Qed.

(** The two buffers of scenario B on the example decoder, overlapping
    and in sequence. *)
Lemma overlapping_handlers_overlap_witness :
  truthy (js "ab") = true /\
  starts (calls (run exampleDecoder listening overlapping)) =
  [(0, 2); (1 # 2, 1)].
Proof.
  split; [reflexivity|].
  exact (proj1 (proj1
           (overlapping_handlers_overlap exampleDecoder
              (js "ab") (js "c") 0 0 0 0
              eq_refl eq_refl eq_refl eq_refl))).
Defined.

(** Scenario B without overlap, on the example decoder: a two-second
    buffer at device time 0 and a one-second buffer at device time 0.5. *)
Lemma schedule_gapless_witness :
  (forall sub, In sub [(0, js "ab"); (1 # 2, js "c")] ->
     0 <= duration (exampleDecoder (snd sub))) /\
  (forall i a b,
     nth_error
       (scheduledBy exampleDecoder [(0, js "ab"); (1 # 2, js "c")] initial) i =
       Some a ->
     nth_error
       (scheduledBy exampleDecoder [(0, js "ab"); (1 # 2, js "c")] initial) (S i) =
       Some b ->
     fst a <= fst b /\ fst a + snd a <= fst b) /\
  scheduledBy exampleDecoder [(0, js "ab"); (1 # 2, js "c")] initial =
  [(0, 2); (2, 1)].
Proof.
  assert (H : forall sub, In sub [(0, js "ab"); (1 # 2, js "c")] ->
                0 <= duration (exampleDecoder (snd sub))).
  { intros sub [<- | [<- | []]]; simpl; discriminate. }
  destruct (schedule_gapless exampleDecoder) as [Hgen Hscenario].
  split; [exact H|]. split.
  - exact (proj2 (proj2 (Hgen initial _ H))).
  - apply Hscenario; reflexivity.
Defined.

(** Scenario C: after a flush with two active sources, a buffer scheduled
    at device time 5 starts at 5. *)
Lemma flush_resets_witness :
  0 <= 5 /\
  audioSourcesRef (flush twoPlaying) = [] /\
  exists startAt,
    scheduledBy exampleDecoder [(5, js "c")] (flush twoPlaying) =
    [(startAt, duration (exampleDecoder (js "c")))] /\
    startAt == 5.
Proof.
  assert (H : 0 <= 5) by discriminate.
  destruct (flush_resets exampleDecoder twoPlaying)
    as ((_ & Hempty & _) & _ & _ & Hnext).
  split; [exact H|]. split; [exact Hempty|].
  exact (Hnext 5 (js "c") H).
Defined.

(** Scenario A: one source fragment, one target fragment, then the end of
    the turn. *)
Lemma completeTurn_emits_witness :
  currentChineseRef initial = [] /\ currentEnglishRef initial = [] /\
  currentChineseRef
    (completeTurn 0
       (appendAll [(SourceTrack, [0x4F60; 0x597D]%N); (TargetTrack, js "Hello")]
          initial)) = [].
Proof.
  split; [reflexivity|]. split; [reflexivity|].
  exact (proj1
           (completeTurn_emits initial
              [(SourceTrack, [0x4F60; 0x597D]%N); (TargetTrack, js "Hello")] 0
              eq_refl eq_refl)).
Defined.

Lemma stop_twice_witness :
  sessionPromiseRef initial = None /\
  handleStopListening (handleStopListening initial) =
  handleStopListening initial.
Proof.
  split; [reflexivity|].
  exact (proj2 (proj2 (proj1 (stop_twice initial) eq_refl))).
Defined.

Lemma history_append_only_witness :
  Stop <> Start /\
  (transcriptionHistory (step exampleDecoder listening Stop) =
     transcriptionHistory listening \/
   exists turn,
     transcriptionHistory (step exampleDecoder listening Stop) =
     transcriptionHistory listening ++ [turn]).
Proof.
  assert (H : Stop <> Start) by discriminate.
  split; [exact H|].
  exact (proj1 (history_append_only exampleDecoder) listening Stop H).
Defined.

(** * Further properties *)

(** ** Teardown *)

Lemma cleanUpAudio_frame_world (s : App) :
  fresh (cleanUpAudio s) = fresh s /\
  pendingStarts (cleanUpAudio s) = pendingStarts s /\
  pendingStops (cleanUpAudio s) = pendingStops s.
Proof. cleanUp_cases s; repeat split. Qed.

(** X1. A second teardown right after a teardown does nothing at all:
    no call is made and no field changes. *)
Theorem cleanUpAudio_idempotent (s : App) :
  cleanUpAudio (cleanUpAudio s) = cleanUpAudio s.
Proof.
  destruct (cleanUpAudio_TornDown s) as (H1 & H2 & H3 & H4 & H5 & H6 & _).
  now apply cleanUpAudio_fixed.
Qed.

(** The calls that a list of calls ends with, after the prefix [lg]. *)
Ltac added_calls L :=
  lazymatch L with
  | ?L' ++ [?x] => let r := added_calls L' in constr:(r ++ [x])
  | _ => constr:(@nil Call)
  end.

(** Teardown appends release calls and one [stop()] for each playing
    source, in this order. *)
Lemma cleanUpAudio_calls (s : App) :
  exists released,
    calls (cleanUpAudio s) =
      calls s ++ released ++ map SourceStop (audioSourcesRef s) /\
    forallb isRelease released = true.
Proof.
  cleanUp_cases s.
  all: match goal with
       | |- exists r, ?L ++ map SourceStop _ = _ /\ _ =>
           let r := added_calls L in exists r
       end.
  all: split; [now rewrite <- ?app_assoc | reflexivity].
Qed.

(** ** Invariants of runs *)

Section Invariants.

Variable decodeAudioData : JSString -> AudioBuffer.

Lemma finishMessage_preserves (P : App -> Prop) :
  (forall s, P s -> P (flush s)) ->
  (forall dateNow s, P s -> P (completeTurn dateNow s)) ->
  forall dateNow c s, P s -> P (finishMessage dateNow c s).
Proof.
  intros Hf Hc dateNow c s H. unfold finishMessage.
  assert (H1 : P (if interrupted c then flush s else s))
    by (destruct (interrupted c); auto).
  destruct (turnComplete c); auto.
Qed.

(** A property kept by the steps of the message handler up to its
    [await] is kept by the handler. *)
Lemma onmessage_preserves (P : App -> Prop) :
  (forall track fragment s, P s -> P (appendFragment track fragment s)) ->
  (forall t payload c s,
     P s -> outputAudioContextRef s <> None -> truthy payload = true ->
     P (suspend {| heldStart := Math_max (nextStartTimeRef s) t;
                   heldPayload := payload; heldContent := c |} s)) ->
  (forall s, P s -> P (flush s)) ->
  (forall dateNow s, P s -> P (completeTurn dateNow s)) ->
  forall t dateNow message s,
    P s -> P (onmessage t dateNow message s).
Proof.
  intros Ha Hs Hf Hc t dateNow message s H. unfold onmessage.
  destruct (serverContent message) as [c|]; [|exact H].
  assert (H1 : P match inputTranscription c with
                 | Some tr => appendFragment SourceTrack (fragmentOf tr) s
                 | None => s
                 end) by (destruct (inputTranscription c); auto).
  revert H1. generalize (match inputTranscription c with
                 | Some tr => appendFragment SourceTrack (fragmentOf tr) s
                 | None => s
                 end). clear s H. intros s H.
  assert (H1 : P match outputTranscription c with
                 | Some tr => appendFragment TargetTrack (fragmentOf tr) s
                 | None => s
                 end) by (destruct (outputTranscription c); auto).
  revert H1. generalize (match outputTranscription c with
                 | Some tr => appendFragment TargetTrack (fragmentOf tr) s
                 | None => s
                 end). clear s H. intros s H.
  destruct (audioPayload c) as [[payload|]|]; [| |exact H].
  - destruct (outputAudioContextRef s) eqn:E;
      [|now apply finishMessage_preserves].
    destruct (truthy payload) eqn:E'; [|now apply finishMessage_preserves].
    apply Hs; auto. congruence.
  - now apply finishMessage_preserves.
Qed.

(** A property kept by the steps of the message handler after its
    [await] is kept when a suspended handler resumes. *)
Lemma ondecoded_preserves (P : App -> Prop) :
  (forall index s,
     P s -> P (set_pendingDecodes (removeAt index (pendingDecodes s)) s)) ->
  (forall index held s,
     nth_error (pendingDecodes s) index = Some held -> P s ->
     P (startSource (heldStart held) (decodeAudioData (heldPayload held))
          (set_pendingDecodes (removeAt index (pendingDecodes s)) s))) ->
  (forall s, P s -> P (flush s)) ->
  (forall dateNow s, P s -> P (completeTurn dateNow s)) ->
  forall index fulfilled dateNow s,
    P s -> P (step decodeAudioData s (DecodeSettled index fulfilled dateNow)).
Proof.
  intros Hdrop Hstart Hf Hc index fulfilled dateNow s H. simpl.
  destruct (nth_error (pendingDecodes s) index) as [held|] eqn:E; [|exact H].
  unfold onmessage_resume. destruct fulfilled; [|now apply Hdrop].
  apply finishMessage_preserves; auto.
Qed.

Lemma run_preserves (P : App -> Prop) :
  (forall s e, P s -> P (step decodeAudioData s e)) ->
  forall events s, P s -> P (run decodeAudioData s events).
Proof.
  intros Hstep. induction events as [|e events IH]; intros s H.
  - exact H.
  - unfold run in *. simpl. apply IH. now apply Hstep.
Qed.

(** *** Invariants of the scheduler and the call log *)

(** The handlers other than those of messages, seen through the call
    log, the name supply, the scheduler and the suspended message
    handlers, are made of four operations; a property of these fields
    kept by the four is kept by every event that neither is a message nor
    resumes the handler of one. *)
Lemma step_world_quiet (P : App -> Prop) :
  (forall s s', calls s' = calls s -> fresh s' = fresh s ->
     audioSourcesRef s' = audioSourcesRef s ->
     nextStartTimeRef s' = nextStartTimeRef s ->
     pendingDecodes s' = pendingDecodes s -> P s -> P s') ->
  (forall c s, isPlain c = true -> P s -> P (call c s)) ->
  (forall s, P s -> P (set_fresh (S (fresh s)) s)) ->
  (forall s, P s -> P (cleanUpAudio s)) ->
  (forall source s, P s -> P (onended source s)) ->
  forall s e,
    (forall t dateNow message, e <> Message t dateNow message) ->
    (forall index fulfilled dateNow,
       e <> DecodeSettled index fulfilled dateNow) ->
    P s -> P (step decodeAudioData s e).
Proof.
  intros Hframe Hcall Hfresh Hclean Hended.
  assert (Hstop : forall s, P s -> P (finishStop s)).
  { intros s H. apply Hclean in H. revert H. unfold finishStop.
    apply Hframe; now destruct (cleanUpAudio s). }
  assert (Hhandle : forall s, P s -> P (handleStopListening s)).
  { intros s H. unfold handleStopListening.
    destruct (sessionPromiseRef s); [|now apply Hstop].
    revert H. apply Hframe; now destruct s. }
  assert (Hstart : forall r n s, P s ->
            P (handleStartListening_resume r (set_pendingStarts n s))).
  { intros r n s H. destruct r as [stream|error]; simpl.
    - pose (s1 := set_fresh (S (fresh s)) s).
      pose (s2 := call (NewAudioContext (fresh s) 24000) s1).
      pose (s3 := set_fresh (S (fresh s2)) s2).
      pose (s4 := call (LiveConnect (fresh s2)) s3).
      apply (Hframe s4); try (now destruct s).
      apply Hcall; [reflexivity|]. apply Hfresh.
      apply Hcall; [reflexivity|]. now apply Hfresh.
    - apply Hclean. apply (Hframe (call ConsoleError s)); try (now destruct s).
      now apply Hcall. }
  assert (Hresume : forall p fulfilled rest s, P s ->
            P (handleStopListening_resume p fulfilled (set_pendingStops rest s))).
  { intros p fulfilled rest s H. unfold handleStopListening_resume.
    apply Hstop.
    apply (Hframe (call (if fulfilled then SessionClose p else ConsoleError) s));
      try (now destruct fulfilled, s).
    apply Hcall; [now destruct fulfilled|exact H]. }
  intros s e He He' H. destruct e; simpl.
  - revert H. apply Hframe; now destruct s.
  - destruct (pendingStarts s); auto.
  - auto.
  - destruct (pendingStops s); auto.
  - pose (s1 := set_fresh (S (fresh s)) s).
    pose (s2 := call (NewAudioContext (fresh s) 16000) s1).
    pose (s3 := set_fresh (S (fresh s2)) s2).
    pose (s4 := call (CreateScriptProcessor (fresh s) (fresh s2)) s3).
    apply (Hframe s4); try (now destruct s).
    apply Hcall; [reflexivity|]. apply Hfresh.
    apply Hcall; [reflexivity|]. now apply Hfresh.
  - now destruct (He currentTime dateNow message).
  - unfold onerror. apply Hhandle.
    apply (Hframe (call ConsoleError s)); try (now destruct s).
    now apply Hcall.
  - unfold onclose. apply Hclean. revert H. apply Hframe; now destruct s.
  - auto.
  - now destruct (He' index fulfilled dateNow).
Qed.

(** With the suspension of a message handler, its resumption and
    [flush], the operations of the message handler on these fields, every
    event is covered. *)
Lemma step_world (P : App -> Prop) :
  (forall s s', calls s' = calls s -> fresh s' = fresh s ->
     audioSourcesRef s' = audioSourcesRef s ->
     nextStartTimeRef s' = nextStartTimeRef s ->
     pendingDecodes s' = pendingDecodes s -> P s -> P s') ->
  (forall c s, isPlain c = true -> P s -> P (call c s)) ->
  (forall s, P s -> P (set_fresh (S (fresh s)) s)) ->
  (forall s, P s -> P (cleanUpAudio s)) ->
  (forall t payload c s, P s ->
     P (suspend {| heldStart := Math_max (nextStartTimeRef s) t;
                   heldPayload := payload; heldContent := c |} s)) ->
  (forall index s,
     P s -> P (set_pendingDecodes (removeAt index (pendingDecodes s)) s)) ->
  (forall index held s,
     nth_error (pendingDecodes s) index = Some held -> P s ->
     P (startSource (heldStart held) (decodeAudioData (heldPayload held))
          (set_pendingDecodes (removeAt index (pendingDecodes s)) s))) ->
  (forall s, P s -> P (flush s)) ->
  (forall source s, P s -> P (onended source s)) ->
  forall s e, P s -> P (step decodeAudioData s e).
Proof.
  intros Hframe Hcall Hfresh Hclean Hsusp Hdrop Hstart Hflush Hended s e.
  assert (Happend : forall track fragment x,
            P x -> P (appendFragment track fragment x)).
  { intros track fragment x. apply Hframe; now destruct track, x. }
  assert (Hcomplete : forall d x, P x -> P (completeTurn d x)).
  { intros d x. apply Hframe; unfold completeTurn;
      destruct (truthy (trim (currentChineseRef x)) ||
                truthy (trim (currentEnglishRef x))); now destruct x. }
  destruct e; try (apply step_world_quiet; auto; discriminate).
  - simpl. apply onmessage_preserves; auto.
  - apply ondecoded_preserves; auto.
Qed.

(** The same for a property that does not look at the suspended
    handlers. *)
Lemma step_world_blind (P : App -> Prop) :
  (forall s s', calls s' = calls s -> fresh s' = fresh s ->
     audioSourcesRef s' = audioSourcesRef s ->
     nextStartTimeRef s' = nextStartTimeRef s -> P s -> P s') ->
  (forall c s, isPlain c = true -> P s -> P (call c s)) ->
  (forall s, P s -> P (set_fresh (S (fresh s)) s)) ->
  (forall s, P s -> P (cleanUpAudio s)) ->
  (forall nextStartTime audioBuffer s,
     P s -> P (startSource nextStartTime audioBuffer s)) ->
  (forall s, P s -> P (flush s)) ->
  (forall source s, P s -> P (onended source s)) ->
  forall s e, P s -> P (step decodeAudioData s e).
Proof.
  intros Hframe Hcall Hfresh Hclean Hstart Hflush Hended.
  assert (Hpending : forall l x, P x -> P (set_pendingDecodes l x)).
  { intros l x. apply Hframe; now destruct x. }
  apply step_world.
  - intros s s' E1 E2 E3 E4 _. now apply Hframe.
  - exact Hcall.
  - exact Hfresh.
  - exact Hclean.
  - intros t payload c s. apply Hpending.
  - intros index s. apply Hpending.
  - intros index held s _ H. apply Hstart. now apply Hpending.
  - exact Hflush.
  - exact Hended.
Qed.

Lemma startSource_fields (w : Q) (b : AudioBuffer) (s : App) :
  calls (startSource w b s) = calls s ++ [SourceStart (fresh s) b w] /\
  audioSourcesRef (startSource w b s) = Set_add (fresh s) (audioSourcesRef s) /\
  fresh (startSource w b s) = S (fresh s) /\
  nextStartTimeRef (startSource w b s) = w + duration b /\
  outputAudioContextRef (startSource w b s) = outputAudioContextRef s /\
  pendingDecodes (startSource w b s) = pendingDecodes s.
Proof. now destruct s. Qed.

(** *** No audio context is closed twice *)

Lemma closeCount_app (c : AudioContext) (l1 l2 : list Call) :
  closeCount c (l1 ++ l2) = (closeCount c l1 + closeCount c l2)%nat.
Proof.
  induction l1 as [|x l1 IH]; simpl; [reflexivity|].
  destruct x; simpl; rewrite ?IH; lia.
Qed.

Lemma closeCount_stops (c : AudioContext) (l : list AudioBufferSourceNode) :
  closeCount c (map SourceStop l) = 0%nat.
Proof. induction l; simpl; auto. Qed.

Lemma isClosed_closeCount (c : AudioContext) (log : list Call) :
  isClosed c log = false -> closeCount c log = 0%nat.
Proof.
  induction log as [|x log IH]; simpl; [reflexivity|].
  destruct x; simpl; auto.
  destruct (Nat.eqb c c0); simpl; [discriminate|auto].
Qed.

Lemma cleanUpAudio_closeCount (s : App) (c : AudioContext) :
  (closeCount c (calls s) <= 1)%nat ->
  (closeCount c (calls (cleanUpAudio s)) <= 1)%nat.
Proof.
  cleanUp_cases s.
  all: repeat match goal with
       | H : isClosed _ _ = false |- _ => apply isClosed_closeCount in H
       | H : isClosed _ _ = true |- _ => clear H
       end.
  all: repeat rewrite closeCount_app in *; rewrite ?closeCount_stops;
       simpl in *.
  all: repeat match goal with
       | |- context [Nat.eqb ?x ?y] => destruct (Nat.eqb_spec x y); subst
       | H : context [Nat.eqb ?x ?y] |- _ =>
           destruct (Nat.eqb_spec x y); subst
       end; simpl in *; lia.
Qed.

Lemma ClosedOnce_cleanUpAudio (s : App) :
  ClosedOnce s -> ClosedOnce (cleanUpAudio s).
Proof. intros H c. apply cleanUpAudio_closeCount, H. Qed.

Lemma ClosedOnce_step (s : App) (e : Event) :
  ClosedOnce s -> ClosedOnce (step decodeAudioData s e).
Proof.
  apply step_world_blind; clear s e.
  - intros s s' E _ _ _ H c. rewrite E. apply H.
  - intros c s Hc H c'. specialize (H c').
    replace (calls (call c s)) with (calls s ++ [c]) by (now destruct s).
    rewrite closeCount_app.
    replace (closeCount c' [c]) with 0%nat by (now destruct c).
    lia.
  - intros s H. now destruct s.
  - exact ClosedOnce_cleanUpAudio.
  - intros w b s H c. specialize (H c).
    destruct (startSource_fields w b s) as (-> & _).
    rewrite closeCount_app. simpl. lia.
  - intros s H c. specialize (H c). unfold flush.
    rewrite stopAllSources_calls.
    replace (calls (set_nextStartTimeRef 0 (set_audioSourcesRef []
               (set_calls (calls s ++ map SourceStop (audioSourcesRef s)) s))))
      with (calls s ++ map SourceStop (audioSourcesRef s)) by (now destruct s).
    rewrite closeCount_app, closeCount_stops. lia.
  - intros source s H. now destruct s.
Qed.

(** X2. Over every run [close()] is called at most once on each audio
    context, provided no context was closed twice before the run. *)
Theorem contexts_closed_once (events : list Event) (s : App) :
  ClosedOnce s -> ClosedOnce (run decodeAudioData s events).
Proof. apply run_preserves. exact ClosedOnce_step. Qed.

(** *** The active set and the call log *)

Lemma startedSources_app (l1 l2 : list Call) :
  startedSources (l1 ++ l2) = startedSources l1 ++ startedSources l2.
Proof.
  induction l1 as [|x l1 IH]; simpl; [reflexivity|].
  destruct x; simpl; now rewrite ?IH.
Qed.

Lemma startedSources_stops (l : list AudioBufferSourceNode) :
  startedSources (map SourceStop l) = [].
Proof. induction l; simpl; auto. Qed.

Lemma startedSources_released (l : list Call) :
  forallb isRelease l = true -> startedSources l = [].
Proof.
  induction l as [|x l IH]; simpl; [reflexivity|].
  destruct x; simpl; try discriminate; auto.
Qed.

Lemma stop_in_released (l : list Call) (source : AudioBufferSourceNode) :
  forallb isRelease l = true -> ~ In (SourceStop source) l.
Proof.
  induction l as [|x l IH]; simpl; [tauto|].
  destruct x; simpl; try discriminate; intros H [H'|H'];
    try discriminate; now apply IH.
Qed.

Lemma stop_in_stops (l : list AudioBufferSourceNode) (source : AudioBufferSourceNode) :
  In (SourceStop source) (map SourceStop l) <-> In source l.
Proof.
  rewrite in_map_iff. split.
  - intros (x & [= ->] & H). exact H.
  - intros H. now exists source.
Qed.

Lemma NoDup_snoc (A : Type) (l : list A) (x : A) :
  NoDup l -> ~ In x l -> NoDup (l ++ [x]).
Proof.
  induction l as [|y l IH]; simpl; intros Hl Hx.
  - constructor; [tauto|constructor].
  - inversion Hl; subst. constructor.
    + rewrite in_app_iff. simpl. intuition congruence.
    + apply IH; tauto.
Qed.

Lemma Set_has_In (x : nat) (l : list nat) :
  Set_has x l = true <-> In x l.
Proof.
  unfold Set_has. rewrite existsb_exists. split.
  - intros (y & Hy & E). apply Nat.eqb_eq in E. now subst.
  - intros H. exists x. split; [exact H|apply Nat.eqb_refl].
Qed.

Lemma Set_add_fresh (x : nat) (l : list nat) :
  ~ In x l -> Set_add x l = l ++ [x].
Proof.
  intros H. unfold Set_add. destruct (Set_has x l) eqn:E; [|reflexivity].
  apply Set_has_In in E. contradiction.
Qed.

Lemma SourcesWellFormed_startSource (w : Q) (b : AudioBuffer) (s : App) :
  SourcesWellFormed s ->
  SourcesWellFormed (startSource w b s).
Proof.
  intros (Hset & Hstarted & Hbound & Hmember & Hstop).
  assert (Hnew : ~ In (fresh s) (startedSources (calls s))).
  { intros H. apply Hbound in H. lia. }
  assert (Hnew' : ~ In (fresh s) (audioSourcesRef s)).
  { intros H. apply Hmember in H. tauto. }
  assert (Ecalls : calls (startSource w b s) =
                   calls s ++ [SourceStart (fresh s) b w])
    by (now destruct s).
  assert (Eset : audioSourcesRef (startSource w b s) =
                 audioSourcesRef s ++ [fresh s]).
  { transitivity (Set_add (fresh s) (audioSourcesRef s)); [now destruct s|].
    now apply Set_add_fresh. }
  assert (Efresh : fresh (startSource w b s) = S (fresh s))
    by (now destruct s).
  unfold SourcesWellFormed.
  rewrite Ecalls, Eset, Efresh, startedSources_app. simpl.
  split; [now apply NoDup_snoc|]. split; [now apply NoDup_snoc|].
  split; [|split].
  - intros source H. apply in_app_iff in H. simpl in H.
    destruct H as [H|[<-|[]]]; [apply Hbound in H|]; lia.
  - intros source H. apply in_app_iff in H. simpl in H.
    rewrite !in_app_iff. simpl. destruct H as [H|[<-|[]]].
    + destruct (Hmember _ H) as [H1 H2]. split; [tauto|].
      intros [H3|[H3|[]]]; [tauto|discriminate].
    + split; [tauto|]. intros [H3|[H3|[]]]; [|discriminate].
      apply Hstop in H3. contradiction.
  - intros source H. apply in_app_iff in H. simpl in H.
    rewrite in_app_iff. destruct H as [H|[H|[]]]; [|discriminate].
    left. now apply Hstop.
Qed.

Lemma SourcesWellFormed_flush (s : App) :
  SourcesWellFormed s -> SourcesWellFormed (flush s).
Proof.
  intros (Hset & Hstarted & Hbound & Hmember & Hstop).
  unfold flush. rewrite stopAllSources_calls.
  assert (E : forall x,
            calls (set_nextStartTimeRef 0 (set_audioSourcesRef []
                     (set_calls x s))) = x /\
            audioSourcesRef (set_nextStartTimeRef 0 (set_audioSourcesRef []
                     (set_calls x s))) = [] /\
            fresh (set_nextStartTimeRef 0 (set_audioSourcesRef []
                     (set_calls x s))) = fresh s)
    by (intros x; now destruct s).
  unfold SourcesWellFormed.
  destruct (E (calls s ++ map SourceStop (audioSourcesRef s))) as (-> & -> & ->).
  rewrite startedSources_app, startedSources_stops, app_nil_r.
  split; [constructor|]. split; [exact Hstarted|]. split; [exact Hbound|].
  split; [intros source []|].
  intros source H. apply in_app_iff in H. destruct H as [H|H].
  - now apply Hstop.
  - apply stop_in_stops in H. now apply Hmember.
Qed.

Lemma SourcesWellFormed_cleanUpAudio (s : App) :
  SourcesWellFormed s -> SourcesWellFormed (cleanUpAudio s).
Proof.
  intros (Hset & Hstarted & Hbound & Hmember & Hstop).
  destruct (cleanUpAudio_calls s) as (released & Ecalls & Hrel).
  destruct (cleanUpAudio_TornDown s) as (_ & _ & _ & _ & Eset & _).
  destruct (cleanUpAudio_frame_world s) as (Efresh & _).
  unfold SourcesWellFormed.
  rewrite Ecalls, Eset, Efresh, !startedSources_app, startedSources_stops,
    (startedSources_released _ Hrel), !app_nil_r.
  split; [constructor|]. split; [exact Hstarted|]. split; [exact Hbound|].
  split; [intros source []|].
  intros source H. rewrite !in_app_iff in H. destruct H as [H|[H|H]].
  - now apply Hstop.
  - now apply stop_in_released in H.
  - apply stop_in_stops in H. now apply Hmember.
Qed.

Lemma SourcesWellFormed_step (s : App) (e : Event) :
  SourcesWellFormed s -> SourcesWellFormed (step decodeAudioData s e).
Proof.
  apply step_world_blind; clear s e.
  - intros s s' E1 E2 E3 _. unfold SourcesWellFormed. now rewrite E1, E2, E3.
  - intros c s Hc (Hset & Hstarted & Hbound & Hmember & Hstop).
    assert (E : calls (call c s) = calls s ++ [c] /\
                audioSourcesRef (call c s) = audioSourcesRef s /\
                fresh (call c s) = fresh s) by (now destruct s).
    destruct E as (E1 & E2 & E3). unfold SourcesWellFormed.
    rewrite E1, E2, E3, startedSources_app.
    replace (startedSources [c]) with (@nil AudioBufferSourceNode)
      by (now destruct c).
    rewrite app_nil_r.
    split; [exact Hset|]. split; [exact Hstarted|]. split; [exact Hbound|].
    split.
    + intros source H. destruct (Hmember _ H) as [H1 H2].
      split; [exact H1|]. intros H3. apply in_app_iff in H3.
      destruct H3 as [H3|[H3|[]]]; [tauto | subst c; discriminate].
    + intros source H. apply in_app_iff in H.
      destruct H as [H|[H|[]]]; [now apply Hstop | subst c; discriminate].
  - intros s (Hset & Hstarted & Hbound & Hmember & Hstop).
    assert (E : calls (set_fresh (S (fresh s)) s) = calls s /\
                audioSourcesRef (set_fresh (S (fresh s)) s) = audioSourcesRef s /\
                fresh (set_fresh (S (fresh s)) s) = S (fresh s))
      by (now destruct s).
    destruct E as (E1 & E2 & E3). unfold SourcesWellFormed.
    rewrite E1, E2, E3.
    split; [exact Hset|]. split; [exact Hstarted|].
    split; [intros source H; apply Hbound in H; lia|].
    split; [exact Hmember | exact Hstop].
  - exact SourcesWellFormed_cleanUpAudio.
  - exact SourcesWellFormed_startSource.
  - exact SourcesWellFormed_flush.
  - intros source s (Hset & Hstarted & Hbound & Hmember & Hstop).
    assert (E : calls (onended source s) = calls s /\
                audioSourcesRef (onended source s) =
                  Set_delete source (audioSourcesRef s) /\
                fresh (onended source s) = fresh s) by (now destruct s).
    destruct E as (E1 & E2 & E3). unfold SourcesWellFormed.
    rewrite E1, E2, E3. unfold Set_delete.
    split; [now apply NoDup_filter|]. split; [exact Hstarted|].
    split; [exact Hbound|]. split; [|exact Hstop].
    intros x H. apply filter_In in H. now apply Hmember.
Qed.

(** X6. Over every run the active set and the call log agree: the
    members of the set are distinct sources that were started and not
    stopped, no source is started twice, and [stop()] is called on
    started sources only. *)
Theorem sources_well_formed (events : list Event) (s : App) :
  SourcesWellFormed s -> SourcesWellFormed (run decodeAudioData s events).
Proof. apply run_preserves. exact SourcesWellFormed_step. Qed.

(** *** Start times *)

Lemma flush_fields (s : App) :
  calls (flush s) = calls s ++ map SourceStop (audioSourcesRef s) /\
  audioSourcesRef (flush s) = [] /\
  nextStartTimeRef (flush s) = 0 /\
  outputAudioContextRef (flush s) = outputAudioContextRef s.
Proof. unfold flush. rewrite stopAllSources_calls. now destruct s. Qed.

Lemma starts_stops (l : list AudioBufferSourceNode) :
  starts (map SourceStop l) = [].
Proof. induction l; simpl; auto. Qed.

Lemma starts_released (l : list Call) :
  forallb isRelease l = true -> starts l = [].
Proof.
  induction l as [|x l IH]; simpl; [reflexivity|].
  destruct x; simpl; try discriminate; auto.
Qed.

Lemma starts_cleanUpAudio (s : App) :
  starts (calls (cleanUpAudio s)) = starts (calls s).
Proof.
  destruct (cleanUpAudio_calls s) as (released & -> & Hrel).
  now rewrite !starts_app, starts_stops, (starts_released _ Hrel), !app_nil_r.
Qed.

Lemma starts_call_plain (c : Call) (s : App) :
  isPlain c = true -> starts (calls (call c s)) = starts (calls s).
Proof.
  intros Hc. replace (calls (call c s)) with (calls s ++ [c])
    by (now destruct s).
  rewrite starts_app. destruct c; try discriminate; simpl;
    now rewrite app_nil_r.
Qed.

(** Events other than messages start no source. *)
Lemma starts_step_quiet (s : App) (e : Event) :
  (forall t dateNow message, e <> Message t dateNow message) ->
  (forall index fulfilled dateNow,
     e <> DecodeSettled index fulfilled dateNow) ->
  starts (calls (step decodeAudioData s e)) = starts (calls s).
Proof.
  intros He He'.
  apply (step_world_quiet (fun s' => starts (calls s') = starts (calls s)));
    auto.
  - intros x x' E _ _ _ _ H. now rewrite E.
  - intros c x Hc H. now rewrite starts_call_plain.
  - intros x H. now destruct x.
  - intros x H. now rewrite starts_cleanUpAudio.
  - intros source x H. now destruct x.
Qed.

Section NonNegative.

Hypothesis duration_nonneg :
  forall payload, 0 <= duration (decodeAudioData payload).

Lemma pendingDecodes_cleanUpAudio (s : App) :
  pendingDecodes (cleanUpAudio s) = pendingDecodes s.
Proof. cleanUp_cases s; reflexivity. Qed.

Lemma removeAt_In (A : Type) (index : nat) (l : list A) (x : A) :
  In x (removeAt index l) -> In x l.
Proof.
  unfold removeAt. rewrite in_app_iff. intros [H|H].
  - rewrite <- (firstn_skipn index l). apply in_or_app. now left.
  - rewrite <- (firstn_skipn (S index) l). apply in_or_app. now right.
Qed.

Lemma Forall_removeAt (A : Type) (Q : A -> Prop) (index : nat) (l : list A) :
  Forall Q l -> Forall Q (removeAt index l).
Proof.
  rewrite !Forall_forall. intros H x Hx. apply H.
  now apply removeAt_In in Hx.
Qed.

Lemma StartsNonNegative_step (s : App) (e : Event) :
  StartsNonNegative s -> StartsNonNegative (step decodeAudioData s e).
Proof.
  apply step_world; clear s e; unfold StartsNonNegative.
  - intros s s' E _ _ E' E''. now rewrite E, E', E''.
  - intros c s Hc (H1 & H2 & H3). rewrite starts_call_plain by exact Hc.
    split; [now destruct s|]. split; [exact H2|now destruct s].
  - intros s H. now destruct s.
  - intros s (H1 & H2 & H3).
    rewrite starts_cleanUpAudio, pendingDecodes_cleanUpAudio.
    destruct (cleanUpAudio_TornDown s) as (_ & _ & _ & _ & _ & -> & _).
    split; [discriminate|]. now split.
  - intros t payload c s (H1 & H2 & H3).
    replace (pendingDecodes (suspend _ s))
      with (pendingDecodes s ++
            [{| heldStart := Math_max (nextStartTimeRef s) t;
                heldPayload := payload; heldContent := c |}])
      by (now destruct s).
    split; [now destruct s|]. split; [now destruct s|].
    apply Forall_app. split; [exact H3|].
    constructor; [|constructor]. simpl.
    eapply Qle_trans; [exact H1|apply Q.le_max_l].
  - intros index s (H1 & H2 & H3).
    split; [now destruct s|]. split; [now destruct s|].
    replace (pendingDecodes (set_pendingDecodes _ s))
      with (removeAt index (pendingDecodes s)) by (now destruct s).
    now apply Forall_removeAt.
  - intros index held s Hheld (H1 & H2 & H3).
    assert (Hw : 0 <= heldStart held).
    { rewrite Forall_forall in H3. apply H3.
      eapply nth_error_In. exact Hheld. }
    destruct (startSource_fields (heldStart held)
                (decodeAudioData (heldPayload held))
                (set_pendingDecodes (removeAt index (pendingDecodes s)) s))
      as (-> & _ & _ & -> & _ & ->).
    split; [|split].
    + specialize (duration_nonneg (heldPayload held)). lra.
    + replace (calls (set_pendingDecodes _ s)) with (calls s)
        by (now destruct s).
      rewrite starts_app. apply Forall_app. split; [exact H2|].
      simpl. constructor; [exact Hw|constructor].
    + replace (pendingDecodes (set_pendingDecodes _ s))
        with (removeAt index (pendingDecodes s)) by (now destruct s).
      now apply Forall_removeAt.
  - intros s (H1 & H2 & H3). destruct (flush_fields s) as (-> & _ & -> & _).
    rewrite starts_app, starts_stops, app_nil_r.
    split; [discriminate|]. split; [exact H2|].
    unfold flush. rewrite stopAllSources_calls. now destruct s.
  - intros source s H. now destruct s.
Qed.

(** X8. With buffers whose duration is not negative, no run ever passes
    a negative time to [source.start()], and the playback cursor never
    becomes negative, whatever the clock readings and however the message
    handlers interleave. *)
Theorem start_times_nonnegative (events : list Event) (s : App) :
  StartsNonNegative s -> StartsNonNegative (run decodeAudioData s events).
Proof. apply run_preserves. exact StartsNonNegative_step. Qed.

End NonNegative.

(** *** Audio without an output context *)

Lemma outputContext_finishStop (s : App) :
  outputAudioContextRef (finishStop s) = None.
Proof.
  destruct (cleanUpAudio_TornDown s) as (_ & _ & _ & H & _).
  unfold finishStop. now destruct (cleanUpAudio s).
Qed.

Lemma outputContext_handleStopListening (s : App) :
  outputAudioContextRef s = None ->
  outputAudioContextRef (handleStopListening s) = None.
Proof.
  intros H. unfold handleStopListening.
  destruct (sessionPromiseRef s); [now destruct s|].
  apply outputContext_finishStop.
Qed.

Lemma onmessage_dropped (t : Q) (dateNow : Z) (message : LiveServerMessage)
    (s : App) :
  outputAudioContextRef s = None ->
  outputAudioContextRef (onmessage t dateNow message s) = None /\
  pendingDecodes (onmessage t dateNow message s) = pendingDecodes s /\
  starts (calls (onmessage t dateNow message s)) =
  starts (calls s).
Proof.
  intros H.
  apply (onmessage_preserves
           (fun s' => outputAudioContextRef s' = None /\
                      pendingDecodes s' = pendingDecodes s /\
                      starts (calls s') = starts (calls s))); auto.
  - intros track fragment x. now destruct track, x.
  - intros t' payload c x [H1 _] H2. contradiction.
  - intros x (H1 & H2 & H3). destruct (flush_fields x) as (-> & _ & _ & ->).
    rewrite starts_app, starts_stops, app_nil_r.
    split; [exact H1|]. split; [|exact H3].
    rewrite <- H2. unfold flush. rewrite stopAllSources_calls. now destruct x.
  - intros d x. unfold completeTurn.
    destruct (truthy (trim (currentChineseRef x)) ||
              truthy (trim (currentEnglishRef x))); now destruct x.
Qed.

Lemma outputContext_step (s : App) (e : Event) :
  isGranted e = false -> outputAudioContextRef s = None ->
  pendingDecodes s = [] ->
  outputAudioContextRef (step decodeAudioData s e) = None.
Proof.
  intros He H Hp. destruct e; simpl.
  - now destruct s.
  - destruct r as [stream|error]; [discriminate|].
    destruct (pendingStarts s); [exact H|]. simpl.
    match goal with
    | |- context [cleanUpAudio ?x] =>
        now destruct (cleanUpAudio_TornDown x) as (_ & _ & _ & H' & _)
    end.
  - now apply outputContext_handleStopListening.
  - destruct (pendingStops s); [exact H|]. apply outputContext_finishStop.
  - now destruct s.
  - now apply onmessage_dropped.
  - unfold onerror. apply outputContext_handleStopListening. now destruct s.
  - unfold onclose.
    match goal with
    | |- context [cleanUpAudio ?x] =>
        now destruct (cleanUpAudio_TornDown x) as (_ & _ & _ & H' & _)
    end.
  - now destruct s.
  - rewrite Hp. now destruct index.
Qed.

Lemma pendingDecodes_step (s : App) (e : Event) :
  outputAudioContextRef s = None -> pendingDecodes s = [] ->
  pendingDecodes (step decodeAudioData s e) = [].
Proof.
  intros H Hp.
  destruct e;
    try (apply (step_world_quiet (fun x => pendingDecodes x = []));
         try discriminate; try assumption;
         [ intros x x' _ _ _ _ E Hx; now rewrite E
         | intros c x _ Hx; now destruct x
         | intros x Hx; now destruct x
         | intros x Hx; now rewrite pendingDecodes_cleanUpAudio
         | intros node x Hx; now destruct x ]).
  - simpl. destruct (onmessage_dropped currentTime dateNow message s H)
      as (_ & -> & _). exact Hp.
  - simpl. rewrite Hp. now destruct index.
Qed.

(** X7. Without an output context, as after every teardown, and with no
    message handler suspended at the decoder, inbound audio is dropped:
    until a [start()] is granted the capture stream no event starts a
    source and no handler suspends.  A message whose payload is the empty
    string changes nothing even with a context.  (A handler that was
    already suspended when the context went away is not covered: it
    starts its source when it resumes.) *)
Theorem audio_dropped_without_context :
  (forall (events : list Event) (s : App),
     forallb (fun e => negb (isGranted e)) events = true ->
     outputAudioContextRef s = None ->
     pendingDecodes s = [] ->
     outputAudioContextRef (run decodeAudioData s events) = None /\
     pendingDecodes (run decodeAudioData s events) = [] /\
     starts (calls (run decodeAudioData s events)) = starts (calls s)) /\
  (forall t dateNow s,
     onmessage t dateNow (audioMessage []) s = s).
Proof.
  split.
  - induction events as [|e events IH]; intros s He H Hp; [now repeat split|].
    simpl in He. apply andb_prop in He. destruct He as [He1 He2].
    apply negb_true_iff in He1.
    unfold run in *. simpl.
    assert (H1 := outputContext_step s e He1 H Hp).
    assert (H2 := pendingDecodes_step s e H Hp).
    destruct (IH _ He2 H1 H2) as (-> & -> & ->).
    split; [reflexivity|]. split; [reflexivity|].
    destruct e; try (apply starts_step_quiet; discriminate).
    + now apply onmessage_dropped.
    + simpl. rewrite Hp. now destruct index.
  - intros t dateNow s. unfold onmessage. simpl.
    now destruct (outputAudioContextRef s).
Qed.

(** *** A source that ends *)

Lemma Set_delete_last (x : nat) (l : list nat) :
  ~ In x l -> Set_delete x (l ++ [x]) = l.
Proof.
  intros H. unfold Set_delete. rewrite filter_app. simpl.
  rewrite Nat.eqb_refl. simpl. rewrite app_nil_r.
  induction l as [|y l IH]; simpl; [reflexivity|].
  simpl in H. destruct (Nat.eqb_spec x y); [subst; tauto|].
  simpl. f_equal. apply IH. tauto.
Qed.

(** X11. When the source that [schedule] has just added ends, the active
    set is again what it was before the [schedule], and the playback
    cursor stays where [schedule] put it; the ['ended'] listener removes
    the ended source and no other. *)
Theorem ended_undoes_add :
  (forall (t : Q) (payload : JSString) (s : App) (source : AudioBufferSourceNode),
     SourcesWellFormed s ->
     In source (audioSourcesRef (schedule decodeAudioData t payload s)) ->
     ~ In source (audioSourcesRef s) ->
     audioSourcesRef
       (onended source (schedule decodeAudioData t payload s)) =
       audioSourcesRef s /\
     nextStartTimeRef
       (onended source (schedule decodeAudioData t payload s)) =
       nextStartTimeRef (schedule decodeAudioData t payload s)) /\
  (forall (s : App) (source other : AudioBufferSourceNode),
     In other (audioSourcesRef (onended source s)) <->
     In other (audioSourcesRef s) /\ other <> source).
Proof.
  split.
  - intros t payload s source (_ & _ & Hbound & Hmember & _) Hin Hout.
    assert (Hnew : ~ In (fresh s) (audioSourcesRef s)).
    { intros H. apply Hmember in H. destruct H as [H _].
      apply Hbound in H. lia. }
    assert (Eset : audioSourcesRef (schedule decodeAudioData t payload s) =
                   audioSourcesRef s ++ [fresh s]).
    { transitivity (Set_add (fresh s) (audioSourcesRef s)); [now destruct s|].
      now apply Set_add_fresh. }
    rewrite Eset in Hin. apply in_app_iff in Hin.
    destruct Hin as [Hin|[<-|[]]]; [contradiction|].
    split.
    + transitivity
        (Set_delete (fresh s)
           (audioSourcesRef (schedule decodeAudioData t payload s))).
      * now destruct (schedule decodeAudioData t payload s).
      * rewrite Eset. now apply Set_delete_last.
    + now destruct (schedule decodeAudioData t payload s).
  - intros s source other.
    replace (audioSourcesRef (onended source s))
      with (Set_delete source (audioSourcesRef s)) by (now destruct s).
    unfold Set_delete. rewrite filter_In, negb_true_iff, Nat.eqb_neq.
    intuition congruence.
Qed.

(** *** Invariants of the transcript *)

Lemma textView_cleanUpAudio (s : App) :
  textView (cleanUpAudio s) = textView s.
Proof.
  destruct (cleanUpAudio_frame s) as (_ & H1 & H2 & H3 & _ & H4 & H5).
  unfold textView. now rewrite H1, H2, H3, H4, H5.
Qed.

Lemma textView_finishStop (s : App) : textView (finishStop s) = textView s.
Proof.
  rewrite <- (textView_cleanUpAudio s). unfold finishStop.
  now destruct (cleanUpAudio s).
Qed.

Lemma textView_handleStopListening (s : App) :
  textView (handleStopListening s) = textView s.
Proof.
  unfold handleStopListening. destruct (sessionPromiseRef s).
  - now destruct s.
  - apply textView_finishStop.
Qed.

(** On the transcript the handlers are made of four operations: the
    reset at the begin of [start()], the error text written to the target
    display string, [appendFragment] and [completeTurn]; the error text is
    written by the events that report an error and by no other. *)
Lemma step_text (P : App -> Prop) :
  (forall s s', textView s' = textView s -> P s -> P s') ->
  (forall s, P s -> P (handleStartListening s)) ->
  (forall track fragment s, P s -> P (appendFragment track fragment s)) ->
  (forall dateNow s, P s -> P (completeTurn dateNow s)) ->
  forall s e,
    (reportsError e = true ->
     forall message x, P x -> P (setCurrentEnglish (errorPrefix ++ message) x)) ->
    P s -> P (step decodeAudioData s e).
Proof.
  intros Hframe Hstart Happend Hcomplete s e Herror H.
  destruct e; simpl.
  - now apply Hstart.
  - destruct (pendingStarts s) as [|n]; [exact H|].
    destruct r as [stream|error]; simpl.
    + revert H. apply Hframe. now destruct s.
    + apply (Hframe (setCurrentEnglish (errorPrefix ++ errorMessage error) s));
        [|now apply Herror].
      rewrite textView_cleanUpAudio. now destruct s.
  - revert H. apply Hframe, textView_handleStopListening.
  - destruct (pendingStops s) as [|p rest]; [exact H|].
    revert H. apply Hframe. unfold handleStopListening_resume.
    rewrite textView_finishStop. now destruct fulfilled, s.
  - revert H. apply Hframe. now destruct s.
  - apply onmessage_preserves; auto.
    + intros t payload c x Hx _ _. revert Hx. apply Hframe. now destruct x.
    + intros x. apply Hframe. unfold flush. rewrite stopAllSources_calls.
      now destruct x.
  - apply (Hframe (setCurrentEnglish (errorPrefix ++ message) s));
      [|now apply Herror].
    unfold onerror. rewrite textView_handleStopListening. now destruct s.
  - revert H. apply Hframe. unfold onclose.
    rewrite textView_cleanUpAudio. now destruct s.
  - revert H. apply Hframe. now destruct s.
  - revert H.
    apply (ondecoded_preserves P); auto.
    + intros i x. apply Hframe. now destruct x.
    + intros i held x _. apply Hframe. now destruct x.
    + intros x. apply Hframe. unfold flush. rewrite stopAllSources_calls.
      now destruct x.
Qed.

(** X4. The display strings follow the accumulators.  Over every run the
    source display string equals the source accumulator; the target
    display string equals the target accumulator as long as no event
    reports an error. *)
Theorem display_follows_accumulators :
  (forall (events : list Event) (s : App),
     currentChinese s = currentChineseRef s ->
     currentChinese (run decodeAudioData s events) =
     currentChineseRef (run decodeAudioData s events)) /\
  (forall (events : list Event) (s : App),
     forallb (fun e => negb (reportsError e)) events = true ->
     currentEnglish s = currentEnglishRef s ->
     currentEnglish (run decodeAudioData s events) =
     currentEnglishRef (run decodeAudioData s events)).
Proof.
  split.
  - apply (run_preserves (fun s => currentChinese s = currentChineseRef s)).
    intros s e.
    apply (step_text (fun s => currentChinese s = currentChineseRef s)).
    + unfold textView. intros x x' [= _ E1 _ E2 _]. congruence.
    + intros x _. now destruct x.
    + intros track fragment x E. destruct track, x; simpl in *; congruence.
    + intros d x _. now destruct (completeTurn_clears d x) as (-> & _ & -> & _).
    + intros _ message x E. now destruct x.
  - induction events as [|e events IH]; intros s He H; [exact H|].
    simpl in He. apply andb_prop in He. destruct He as [He1 He2].
    apply negb_true_iff in He1. unfold run in *. simpl.
    apply IH; [exact He2|]. revert H.
    apply (step_text (fun s => currentEnglish s = currentEnglishRef s)).
    + unfold textView. intros x x' [= _ _ E1 _ E2]. congruence.
    + intros x _. now destruct x.
    + intros track fragment x E. destruct track, x; simpl in *; congruence.
    + intros d x _. now destruct (completeTurn_clears d x) as (_ & -> & _ & ->).
    + congruence.
Qed.

(** X5. Every Turn of the history has text on at least one track once
    trimmed, over every run that starts with such a history; and
    [completeTurn] leaves the history as it is exactly when both
    accumulators hold nothing but white space. *)
Theorem turns_have_text :
  (forall (events : list Event) (s : App),
     Forall (fun turn => hasText turn = true) (transcriptionHistory s) ->
     Forall (fun turn => hasText turn = true)
            (transcriptionHistory (run decodeAudioData s events))) /\
  (forall (dateNow : Z) (s : App),
     transcriptionHistory (completeTurn dateNow s) = transcriptionHistory s <->
     forallb isWhiteSpace (currentChineseRef s) = true /\
     forallb isWhiteSpace (currentEnglishRef s) = true).
Proof.
  split.
  - apply (run_preserves
             (fun s => Forall (fun turn => hasText turn = true)
                              (transcriptionHistory s))).
    intros s e.
    apply (step_text
             (fun s => Forall (fun turn => hasText turn = true)
                              (transcriptionHistory s))).
    + unfold textView. intros x x' [= E _ _ _ _]. now rewrite E.
    + intros x _. destruct x; constructor.
    + intros track fragment x. now destruct track, x.
    + intros d x H. rewrite completeTurn_history.
      destruct (truthy (trim (currentChineseRef x)) ||
                truthy (trim (currentEnglishRef x))) eqn:E; [|exact H].
      apply Forall_app. split; [exact H|]. constructor; [exact E|constructor].
    + intros _ message x. now destruct x.
  - intros dateNow s. rewrite completeTurn_history, <- !trim_blank.
    destruct (truthy (trim (currentChineseRef s))) eqn:E1;
      destruct (truthy (trim (currentEnglishRef s))) eqn:E2; simpl.
    all: try apply truthy_false in E1; try apply truthy_false in E2.
    all: split; [intros H | intros [H1 H2]].
    all: try (apply (f_equal (@length _)) in H; rewrite length_app in H;
              simpl in H; lia).
    all: try tauto.
    all: try (rewrite H1 in E1; discriminate).
    all: try (rewrite H2 in E2; discriminate).
Qed.

(** *** Error texts *)

(** X9. A [start()] that fails at the capture device shows the reason:
    the target display string is "Error: " followed by the message of the
    error, so the block of the turn in progress is rendered, and the
    error hint is rendered too; the history, the source display string and
    both accumulators are empty and everything is torn down. *)
Theorem start_failure_reports (s : App) (error : Thrown) :
  let after :=
    run decodeAudioData s [Start; GetUserMediaSettled (Rejected error)] in
  currentEnglish after = errorPrefix ++ errorMessage error /\
  inProgressVisible after = true /\
  errorHintVisible after = true /\
  (transcriptionHistory after = [] /\ currentChinese after = [] /\
   currentChineseRef after = [] /\ currentEnglishRef after = []) /\
  TornDown s after.
Proof.
  destruct s as [st hi cc ce sp sr ac pr oc ns so ccr cer lg fr ps pp].
  unfold run. simpl.
  match goal with
  | |- context [cleanUpAudio ?x] =>
      pose proof (cleanUpAudio_TornDown x) as Htorn;
      pose proof (textView_cleanUpAudio x) as Hview;
      destruct (cleanUpAudio_frame x) as (Hst & _);
      destruct (cleanUpAudio x)
  end.
  unfold textView in Hview. simpl in Hview, Hst.
  injection Hview as -> -> -> -> ->. subst.
  repeat split; apply Htorn.
Qed.

Lemma textView_settle (fulfilled : bool) (s : App) :
  textView (step decodeAudioData s (SessionAwaited fulfilled)) = textView s.
Proof.
  simpl. destruct (pendingStops s) as [|p rest]; [reflexivity|].
  unfold handleStopListening_resume. rewrite textView_finishStop.
  now destruct fulfilled, s.
Qed.

(** X10. A remote error writes "Error: " and its message to the target
    display string and to nothing else of the transcript: after the
    handler and the stop it calls, the history, the source display string
    and both accumulators are as before, the block of the turn in progress
    is rendered, and a Turn completed next holds the accumulated texts,
    not the error text. *)
Theorem remote_error_reports
    (s : App) (message : JSString) (fulfilled : bool) :
  let after :=
    run decodeAudioData s [RemoteError message; SessionAwaited fulfilled] in
  textView after = textView (setCurrentEnglish (errorPrefix ++ message) s) /\
  currentEnglish after = errorPrefix ++ message /\
  inProgressVisible after = true /\
  (forall dateNow turn,
     In turn (transcriptionHistory (completeTurn dateNow after)) ->
     In turn (transcriptionHistory s) \/
     chinese turn = currentChineseRef s /\ english turn = currentEnglishRef s).
Proof.
  intros after.
  assert (Hview : textView after =
                  textView (setCurrentEnglish (errorPrefix ++ message) s)).
  { subst after.
    change (run decodeAudioData s [RemoteError message; SessionAwaited fulfilled])
      with (step decodeAudioData (step decodeAudioData s (RemoteError message))
              (SessionAwaited fulfilled)).
    rewrite textView_settle. simpl. unfold onerror.
    rewrite textView_handleStopListening. now destruct s. }
  assert (Hfields : transcriptionHistory after = transcriptionHistory s /\
                    currentEnglish after = errorPrefix ++ message /\
                    currentChineseRef after = currentChineseRef s /\
                    currentEnglishRef after = currentEnglishRef s).
  { revert Hview. unfold textView. destruct s. simpl.
    intros [= -> _ -> -> ->]. now repeat split. }
  destruct Hfields as (E1 & E2 & E3 & E4).
  split; [exact Hview|]. split; [exact E2|]. split.
  - unfold inProgressVisible. rewrite E2. apply orb_true_r.
  - intros dateNow turn. rewrite completeTurn_history, E1, E3, E4.
    destruct (truthy (trim (currentChineseRef s)) ||
              truthy (trim (currentEnglishRef s))); [|now left].
    intros H. apply in_app_iff in H. destruct H as [H|[<-|[]]]; auto.
Qed.

End Invariants.

(** ** Stop, close and the button *)

Lemma finishStop_clean (s : App) :
  status (finishStop s) = IDLE /\
  streamRef (finishStop s) = None /\
  processorRef (finishStop s) = None /\
  audioContextRef (finishStop s) = None /\
  outputAudioContextRef (finishStop s) = None /\
  audioSourcesRef (finishStop s) = [] /\
  nextStartTimeRef (finishStop s) = 0.
Proof.
  destruct (cleanUpAudio_TornDown s) as (H1 & H2 & H3 & H4 & H5 & H6 & _).
  unfold finishStop. now destruct (cleanUpAudio s).
Qed.

Lemma TornDown_finishStop (before s : App) :
  streamRef s = streamRef before ->
  processorRef s = processorRef before ->
  audioContextRef s = audioContextRef before ->
  outputAudioContextRef s = outputAudioContextRef before ->
  audioSourcesRef s = audioSourcesRef before ->
  TornDown before (finishStop s).
Proof.
  intros E1 E2 E3 E4 E5.
  pose proof (cleanUpAudio_TornDown s) as H. unfold TornDown in *.
  rewrite E1, E2, E3, E4, E5 in H.
  unfold finishStop. now destruct (cleanUpAudio s).
Qed.

(** X3. A [stop()] that resumes after its [await] ends the same way
    whether the session promise was fulfilled or rejected: status Idle,
    session reference cleared, everything torn down, the transcript
    untouched.  [session.close()] is called when the promise was
    fulfilled, and no session is closed when it was rejected. *)
Theorem stop_completes (s : App) (p : SessionPromise) (fulfilled : bool) :
  let after := handleStopListening_resume p fulfilled s in
  status after = IDLE /\
  sessionPromiseRef after = None /\
  TornDown s after /\
  textView after = textView s /\
  (fulfilled = true -> In (SessionClose p) (calls after)) /\
  (fulfilled = false ->
   forall q, In (SessionClose q) (calls after) -> In (SessionClose q) (calls s)).
Proof.
  intros after. subst after. unfold handleStopListening_resume.
  set (x := set_sessionPromiseRef None
              (if fulfilled then call (SessionClose p) s
               else call ConsoleError s)).
  assert (Ecalls : calls x = calls s ++
                     [if fulfilled then SessionClose p else ConsoleError])
    by (subst x; now destruct fulfilled, s).
  destruct (cleanUpAudio_calls x) as (released & Hcalls & Hrel).
  assert (Eafter : calls (finishStop x) = calls (cleanUpAudio x))
    by (unfold finishStop; now destruct (cleanUpAudio x)).
  split; [apply status_finishStop|]. split.
  { destruct (cleanUpAudio_frame x) as (_ & _ & _ & _ & H & _).
    unfold finishStop. subst x.
    destruct (cleanUpAudio _); simpl in *. rewrite H.
    now destruct fulfilled, s. }
  split; [apply TornDown_finishStop; subst x; now destruct fulfilled, s|].
  split; [rewrite textView_finishStop; subst x; now destruct fulfilled, s|].
  rewrite Eafter, Hcalls, Ecalls. split.
  - intros ->. rewrite !in_app_iff. simpl. tauto.
  - intros -> q. rewrite !in_app_iff. simpl.
    intros [[H|[H|[]]]|[H|H]]; auto; try discriminate.
    + exfalso. clear - H Hrel. induction released as [|c l IH]; [easy|].
      simpl in *. apply andb_prop in Hrel. destruct Hrel as [Hc Hl].
      destruct H as [->|H]; [discriminate|auto].
    + apply in_map_iff in H. destruct H as (h & H & _). discriminate.
Qed.

Lemma setStatus_same (s : App) (v : AppStatus) :
  status s = v -> setStatus v s = s.
Proof. intros <-. now destruct s. Qed.

(** X14. The close event that follows a completed [stop()] changes
    nothing at all, and neither does a second close event after a first:
    the status stays and no call is made. *)
Theorem close_after_stop (s : App) :
  (sessionPromiseRef s = None ->
   onclose (handleStopListening s) = handleStopListening s) /\
  (forall p fulfilled,
   onclose (handleStopListening_resume p fulfilled s) =
   handleStopListening_resume p fulfilled s) /\
  onclose (onclose s) = onclose s.
Proof.
  assert (Hfin : forall x, onclose (finishStop x) = finishStop x).
  { intros x. destruct (finishStop_clean x) as (H0 & H1 & H2 & H3 & H4 & H5 & H6).
    unfold onclose. rewrite H0, (setStatus_same _ H0).
    now apply cleanUpAudio_fixed. }
  split; [|split].
  - intros Hs. unfold handleStopListening. rewrite Hs. apply Hfin.
  - intros p fulfilled. apply Hfin.
  - unfold onclose at 2 3.
    set (x := setStatus match status s with ERROR => ERROR | _ => IDLE end s).
    destruct (cleanUpAudio_TornDown x) as (H1 & H2 & H3 & H4 & H5 & H6 & _).
    destruct (cleanUpAudio_frame x) as (Hst & _).
    unfold onclose. rewrite setStatus_same.
    + now apply cleanUpAudio_fixed.
    + rewrite Hst. subst x. destruct s as [st]; simpl. now destruct st.
Qed.

(** X12. The button begins a [start()] only in status Idle or Error and
    is disabled from then on, so a second click right after the first
    does nothing; while Listening a click is a [stop()], and while
    Connecting it does nothing. *)
Theorem click_dispatch (s : App) :
  (status s = IDLE \/ status s = ERROR ->
   onClick s = handleStartListening s /\
   onClick (onClick s) = onClick s) /\
  (status s = LISTENING -> onClick s = handleStopListening s) /\
  (status s = CONNECTING -> onClick s = s) /\
  (pendingStarts (onClick s) <> pendingStarts s ->
   status s = IDLE \/ status s = ERROR).
Proof.
  unfold onClick, buttonDisabled, buttonStops.
  split; [|split; [|split]].
  - intros [H|H]; rewrite H; (split; [reflexivity|]); now destruct s.
  - now intros ->.
  - now intros ->.
  - destruct (status s) eqn:E; auto.
    + intros H. now destruct H.
    + intros H. exfalso. apply H. unfold handleStopListening.
      destruct (sessionPromiseRef s); [now destruct s|].
      unfold finishStop.
      destruct (cleanUpAudio_frame_world s) as (_ & <- & _).
      now destruct (cleanUpAudio s).
Qed.

(** ** The status and the transcript under each event *)

Section Transitions.

Variable decodeAudioData : JSString -> AudioBuffer.

Lemma status_cleanUpAudio (s : App) : status (cleanUpAudio s) = status s.
Proof. now destruct (cleanUpAudio_frame s) as (H & _). Qed.

Lemma status_onmessage
    (t : Q) (dateNow : Z) (message : LiveServerMessage) (s : App) :
  status (onmessage t dateNow message s) = status s.
Proof.
  apply (onmessage_preserves (fun x => status x = status s));
    auto.
  - intros track fragment x. now destruct track, x.
  - intros t' payload c x H _ _. now destruct x.
  - intros x H. unfold flush. rewrite stopAllSources_calls. now destruct x.
  - intros d x H. unfold completeTurn.
    destruct (truthy (trim (currentChineseRef x)) ||
              truthy (trim (currentEnglishRef x))); now destruct x.
Qed.

Lemma status_ondecoded
    (index : nat) (fulfilled : bool) (dateNow : Z) (s : App) :
  status (step decodeAudioData s (DecodeSettled index fulfilled dateNow)) =
  status s.
Proof.
  apply (ondecoded_preserves decodeAudioData (fun x => status x = status s));
    auto.
  - intros i x H. now destruct x.
  - intros i held x _ H. now destruct x.
  - intros x H. unfold flush. rewrite stopAllSources_calls. now destruct x.
  - intros d x H. unfold completeTurn.
    destruct (truthy (trim (currentChineseRef x)) ||
              truthy (trim (currentEnglishRef x))); now destruct x.
Qed.

Lemma status_step (s : App) (e : Event) :
  status (step decodeAudioData s e) = status s \/
  status (step decodeAudioData s e) = IDLE \/
  (e = Start /\ status (step decodeAudioData s e) = CONNECTING) \/
  (e = Open /\ status (step decodeAudioData s e) = LISTENING) \/
  (reportsError e = true /\ status (step decodeAudioData s e) = ERROR).
Proof.
  destruct e; try (left; apply status_ondecoded); simpl.
  - right; right; left. now destruct s.
  - destruct (pendingStarts s); [now left|].
    destruct r as [stream|error]; simpl.
    + left. now destruct s.
    + right; right; right; right. rewrite status_cleanUpAudio. now destruct s.
  - unfold handleStopListening. destruct (sessionPromiseRef s).
    + left. now destruct s.
    + right; left. apply status_finishStop.
  - destruct (pendingStops s); [now left|].
    right; left. apply status_finishStop.
  - right; right; right; left. now destruct s.
  - left. apply status_onmessage.
  - unfold onerror, handleStopListening.
    match goal with
    | |- context [sessionPromiseRef ?x] => destruct (sessionPromiseRef x)
    end.
    + right; right; right; right. now destruct s.
    + right; left. apply status_finishStop.
  - unfold onclose. rewrite status_cleanUpAudio.
    destruct s as [st]; simpl. destruct st; auto.
  - left. now destruct s.
Qed.

(** X15. The status changes only as follows: it becomes Connecting
    only by [start()], Listening only by the open callback, and Error
    only by an event that reports an error; messages, also when their
    handlers resume after the decoder, and ended sources never change
    it. *)
Theorem status_changes (s : App) (e : Event) :
  (status (step decodeAudioData s e) = CONNECTING ->
   status s = CONNECTING \/ e = Start) /\
  (status (step decodeAudioData s e) = LISTENING ->
   status s = LISTENING \/ e = Open) /\
  (status (step decodeAudioData s e) = ERROR ->
   status s = ERROR \/ reportsError e = true) /\
  (forall t dateNow message, e = Message t dateNow message ->
   status (step decodeAudioData s e) = status s) /\
  (forall source, e = Ended source ->
   status (step decodeAudioData s e) = status s) /\
  (forall index fulfilled dateNow,
   e = DecodeSettled index fulfilled dateNow ->
   status (step decodeAudioData s e) = status s).
Proof.
  split; [|split; [|split; [|split; [|split]]]].
  - intros H.
    destruct (status_step s e) as [E|[E|[[E _]|[[_ E]|[_ E]]]]];
      first [left; congruence | right; assumption | congruence].
  - intros H.
    destruct (status_step s e) as [E|[E|[[_ E]|[[E _]|[_ E]]]]];
      first [left; congruence | right; assumption | congruence].
  - intros H.
    destruct (status_step s e) as [E|[E|[[_ E]|[[_ E]|[E _]]]]];
      first [left; congruence | right; assumption | congruence].
  - intros t dateNow message ->. apply status_onmessage.
  - intros source ->. now destruct s.
  - intros index fulfilled dateNow ->. apply status_ondecoded.
Qed.

(** X17. Stop, close, open, the grant of the capture stream and ended
    sources leave the whole transcript as it is: the history, the two
    display strings and the two accumulators; so does a message that
    carries nothing but the interruption signal. *)
Theorem transcript_survives (s : App) (e : Event) :
  (touchesTranscript e = false ->
   textView (step decodeAudioData s e) = textView s) /\
  (forall t dateNow,
     textView (onmessage t dateNow interruptedMessage s) =
     textView s).
Proof.
  split.
  - intros He. destruct e; try discriminate.
    + simpl. destruct (pendingStarts s); [reflexivity|].
      destruct r as [stream|error]; [|discriminate]. now destruct s.
    + apply textView_handleStopListening.
    + apply textView_settle.
    + now destruct s.
    + simpl. unfold onclose. rewrite textView_cleanUpAudio. now destruct s.
    + now destruct s.
  - intros t dateNow. rewrite onmessage_interrupted.
    unfold flush. rewrite stopAllSources_calls. now destruct s.
Qed.

End Transitions.

(** ** Worked instances of the further properties *)

Lemma initial_ClosedOnce : ClosedOnce initial.
Proof. intros c. simpl. lia. Defined.

Lemma contexts_closed_once_witness :
  ClosedOnce initial /\
  ClosedOnce (run exampleDecoder initial sessionEvents).
Proof.
  split; [exact initial_ClosedOnce|].
  exact (@contexts_closed_once exampleDecoder sessionEvents initial
           initial_ClosedOnce).
Defined.

Lemma initial_SourcesWellFormed : SourcesWellFormed initial.
Proof.
  unfold SourcesWellFormed. simpl.
  split; [constructor|]. split; [constructor|].
  split; [intros x []|]. split; intros x [].
Defined.

Lemma sources_well_formed_witness :
  SourcesWellFormed initial /\
  SourcesWellFormed (run exampleDecoder initial sessionEvents).
Proof.
  split; [exact initial_SourcesWellFormed|].
  exact (@sources_well_formed exampleDecoder sessionEvents initial
           initial_SourcesWellFormed).
Defined.

Lemma exampleDecoder_nonneg (payload : JSString) :
  0 <= duration (exampleDecoder payload).
Proof. unfold Qle. simpl. lia. Defined.

Lemma start_times_nonnegative_witness :
  StartsNonNegative initial /\
  StartsNonNegative (run exampleDecoder initial sessionEvents).
Proof.
  assert (H : StartsNonNegative initial).
  { split; [discriminate|split; constructor]. }
  split; [exact H|].
  exact (@start_times_nonnegative exampleDecoder exampleDecoder_nonneg
           sessionEvents initial H).
Defined.

Lemma audio_dropped_without_context_witness :
  (outputAudioContextRef (handleStopListening_resume 1%nat true listening) = None /\
   pendingDecodes (handleStopListening_resume 1%nat true listening) = []) /\
  starts (calls (run exampleDecoder
                   (handleStopListening_resume 1%nat true listening)
                   [Message 0 0 (audioMessage (js "ab"));
                    DecodeSettled 0 true 0; Close])) =
  starts (calls (handleStopListening_resume 1%nat true listening)).
Proof.
  split; [split; reflexivity|].
  exact (proj2 (proj2 (proj1 (audio_dropped_without_context exampleDecoder)
                  [Message 0 0 (audioMessage (js "ab"));
                   DecodeSettled 0 true 0; Close]
                  (handleStopListening_resume 1%nat true listening)
                  eq_refl eq_refl eq_refl))).
Defined.

Lemma listening_SourcesWellFormed : SourcesWellFormed listening.
Proof.
  unfold SourcesWellFormed. simpl.
  split; [constructor|]. split; [constructor|].
  split; [intros x []|]. split; [intros x []|].
  intros x H. repeat (destruct H as [H|H]; [discriminate|]). destruct H.
Defined.

Lemma ended_undoes_add_witness :
  SourcesWellFormed listening /\
  audioSourcesRef
    (onended 4%nat (schedule exampleDecoder 0 (js "ab") listening)) =
  audioSourcesRef listening.
Proof.
  split; [exact listening_SourcesWellFormed|].
  refine (proj1 (proj1 (ended_undoes_add exampleDecoder)
                   0 (js "ab") listening 4%nat
                   listening_SourcesWellFormed _ _)).
  - simpl. now left.
  - simpl. tauto.
Defined.

Lemma display_follows_accumulators_witness :
  currentChinese initial = currentChineseRef initial /\
  currentChinese (run exampleDecoder initial sessionEvents) =
  currentChineseRef (run exampleDecoder initial sessionEvents).
Proof.
  split; [reflexivity|].
  exact (proj1 (display_follows_accumulators exampleDecoder)
           sessionEvents initial eq_refl).
Defined.

Lemma turns_have_text_witness :
  Forall (fun turn => hasText turn = true) (transcriptionHistory initial) /\
  Forall (fun turn => hasText turn = true)
    (transcriptionHistory (run exampleDecoder initial sessionEvents)).
Proof.
  assert (H : Forall (fun turn => hasText turn = true)
                (transcriptionHistory initial)) by constructor.
  split; [exact H|].
  exact (proj1 (turns_have_text exampleDecoder) sessionEvents initial H).
Defined.

Lemma stop_completes_witness :
  In (SessionClose 1%nat)
     (calls (handleStopListening_resume 1%nat true listening)).
Proof.
  exact (proj1 (proj2 (proj2 (proj2 (proj2
           (stop_completes listening 1%nat true))))) eq_refl).
Defined.

Lemma close_after_stop_witness :
  sessionPromiseRef initial = None /\
  onclose (handleStopListening initial) = handleStopListening initial.
Proof.
  split; [reflexivity|].
  exact (proj1 (close_after_stop initial) eq_refl).
Defined.

Lemma click_dispatch_witness :
  (status initial = IDLE \/ status initial = ERROR) /\
  onClick (onClick initial) = onClick initial.
Proof.
  assert (H : status initial = IDLE \/ status initial = ERROR)
    by (left; reflexivity).
  split; [exact H|].
  exact (proj2 (proj1 (click_dispatch initial) H)).
Defined.

Lemma status_changes_witness :
  status (step exampleDecoder initial Start) = CONNECTING /\
  (status initial = CONNECTING \/ Start = Start).
Proof.
  split; [reflexivity|].
  exact (proj1 (status_changes exampleDecoder initial Start) eq_refl).
Defined.

Lemma transcript_survives_witness :
  touchesTranscript Close = false /\
  textView (step exampleDecoder listening Close) = textView listening.
Proof.
  split; [reflexivity|].
  exact (proj1 (transcript_survives exampleDecoder listening Close) eq_refl).
Defined.
